(** * FortuneGacha: the draw state machine and its particle physics

    A shallow embedding of [src/components/FortuneGacha.tsx]: the classes
    [Particle] and [ConcentrationLine], the closures [addEnergyParticle],
    [addConcentrationLine], [handleTap], [handleResize] and the ticker
    callback, with the mutable variables of [initApp] gathered in one record.

    Conventions of the embedding.
    - A JavaScript [number] is a real number: rounding, overflow and NaN of
      binary64 are outside the model.  The only operation of the program
      that can leave the finite numbers on finite operands is a division,
      and the divisors are named where a statement is about them.
      Statements about a flag, a phase or a bound are phrased on the tests
      the code makes, so that they hold under rounding as well.  Where
      rounding decides what a run does, the accumulation of the charge
      progress, [Core64] replays the phase and the progress in binary64.
    - [Math.random] is an oracle: every handler call receives the sequence
      of values that [Math.random] returns during that call and reads it
      from position 0.  The handlers are defined for every oracle; that the
      values lie in [0,1) is the hypothesis [valid_rnd].
    - Drawing into [Graphics] objects is kept out of the handlers.
      [drawGachaMachine], [drawParticles] and [drawBackground] are
      embedded on their own, as the lists of calls they make; the shapes
      and texts of [drawCard] are not modelled.  Properties of display
      objects that the handlers assign directly are fields of [Scene]; a
      [gsap.to] call is recorded in the order it is issued, its later
      interpolation is not modelled. *)

From Stdlib Require Import PrimFloat.
From Stdlib Require Import Reals Lra Lia List ZArith String Bool.
Import ListNotations.
Local Open Scope R_scope.

(** ** Numbers *)

Definition ltb (a b : R) : bool := if Rlt_dec a b then true else false.
Definition gtb (a b : R) : bool := ltb b a.
Definition geb (a b : R) : bool := if Rle_dec b a then true else false.

(** [Math.floor]. *)
Definition floor (r : R) : Z := Int_part r.

(** [Math.hypot] on two arguments. *)
Definition hypot (a b : R) : R := sqrt (a * a + b * b).

(** [l[i]] for an integral index: [None] is [undefined]. *)
Definition index {A : Type} (l : list A) (i : Z) : option A :=
  if (i <? 0)%Z then None else nth_error l (Z.to_nat i).

(** ** The random oracle *)

Definition Rand (A : Type) : Type := (nat -> R) -> nat -> A * nat.

Definition ret {A : Type} (a : A) : Rand A := fun _ n => (a, n).

Definition bind {A B : Type} (m : Rand A) (k : A -> Rand B) : Rand B :=
  fun rnd n => let (a, n') := m rnd n in k a rnd n'.

(** One call of [Math.random()]. *)
Definition random : Rand R := fun rnd n => (rnd n, S n).

Notation "x <- m ;; k" := (bind m (fun x => k))
  (at level 61, m at next level, right associativity).

(** Runs a handler body on the oracle of one call. *)
Definition run {A : Type} (m : Rand A) (rnd : nat -> R) : A := fst (m rnd O).

Definition valid_rnd (rnd : nat -> R) : Prop := forall n, 0 <= rnd n < 1.

(** ** Fortune results *)

Record Fortune : Type := mkFortune
  { rank : string; fcolor : Z; message : string }.

Definition FORTUNES : list Fortune :=
  [ mkFortune "大吉" 0xffd700 "最高の運勢！素晴らしい一日になるでしょう";
    mkFortune "中吉" 0xff6b9d "良い運勢です。前向きに行動しましょう";
    mkFortune "小吉" 0x7dd3fc "まずまずの運勢。穏やかに過ごせます";
    mkFortune "吉" 0x86efac "普通の運勢。地道な努力が実を結びます";
    mkFortune "末吉" 0xc4b5fd "控えめな運勢。慎重に行動しましょう";
    mkFortune "凶" 0x94a3b8 "今日は慎重に。明日はきっと良い日に" ].

(** ** class Particle *)

Module Particle.

(** [color] is [None] when the constructor was handed [undefined]. *)
Record t : Type := mk
  { x : R; y : R; vx : R; vy : R; life : R; maxLife : R; size : R;
    color : option Z; gravity : R; friction : R }.

(** [constructor(x, y, color)]: four calls of [Math.random], in the order
    angle, speed, maxLife, size. *)
Definition new (x0 y0 : R) (c : option Z) : Rand t :=
  ra <- random ;;
  rs <- random ;;
  rm <- random ;;
  rz <- random ;;
  let angle := ra * PI * 2 in
  let speed := rs * 15 + 5 in
  ret (mk x0 y0 (cos angle * speed) (sin angle * speed) 1
          (rm * 2 + 1) (rz * 4 + 2) c 0.15 0.98).

(** [update(delta)]: the particle after the call and the returned flag. *)
Definition update (delta : R) (p : t) : t * bool :=
  let vy1 := vy p + gravity p * delta in
  let vx2 := vx p * friction p in
  let vy2 := vy1 * friction p in
  let x2 := x p + vx2 * delta in
  let y2 := y p + vy2 * delta in
  let life2 := life p - delta / 60 / maxLife p in
  (mk x2 y2 vx2 vy2 life2 (maxLife p) (size p) (color p)
      (gravity p) (friction p),
   gtb life2 0).

End Particle.

(** ** class ConcentrationLine *)

Module ConcentrationLine.

Record t : Type := mk
  { angle : R; speed : R; length : R; width : R; distance : R;
    targetX : R; targetY : R }.

(** [constructor(centerX, centerY)]: five calls of [Math.random]. *)
Definition new (centerX centerY : R) : Rand t :=
  ra <- random ;;
  rs <- random ;;
  rl <- random ;;
  rw <- random ;;
  rd <- random ;;
  ret (mk (ra * PI * 2) (rs * 8 + 4) (rl * 100 + 50) (rw * 3 + 1)
          (rd * 200 + 400) centerX centerY).

Definition update (delta : R) (l : t) : t * bool :=
  let d := distance l - speed l * delta in
  (mk (angle l) (speed l) (length l) (width l) d (targetX l) (targetY l),
   gtb d 0).

Record Position : Type := mkPosition
  { x : R; y : R; endX : R; endY : R }.

Definition getPosition (l : t) : Position :=
  mkPosition
    (targetX l + cos (angle l) * distance l)
    (targetY l + sin (angle l) * distance l)
    (targetX l + cos (angle l) * (distance l + length l))
    (targetY l + sin (angle l) * (distance l + length l)).

End ConcentrationLine.

(** [arr.filter(f)] for a callback that mutates the element it is given and
    returns whether to keep it. *)
Fixpoint filter_update {A : Type} (f : A -> A * bool) (l : list A) : list A :=
  match l with
  | [] => []
  | a :: l' =>
      let (a', keep) := f a in
      if keep then a' :: filter_update f l' else filter_update f l'
  end.

(** ** The state of one scene *)

Inductive GachaPhase : Type := idle | charging | releasing | result.

(** The [gsap.to] calls of the program. *)
Inductive Tween : Type :=
| OverlayFade (from to duration : R)
| BloomTo (bloomScale brightness duration : R) (yoyo : bool) (repeat : nat)
| BackgroundFlash (duration : R)
| CardScaleTo (sx sy duration : R)
| CardRotationTo (rotation duration : R).

(** Directly assigned properties of the display objects, and the tweens
    issued so far (oldest first). *)
Record Scene : Type := mkScene
  { instructionVisible : bool;
    instructionAlpha : R;
    instructionPos : R * R;
    cardVisible : bool;
    cardScale : R * R;
    cardRotation : R;
    cardPos : R * R;
    layerScale : R * R;
    layerPos : R * R;
    gachaAlpha : R;
    glowAlpha : R;
    tweens : list Tween }.

(** The [let] variables of [initApp]. *)
Record GachaState : Type := mkState
  { phase : GachaPhase;
    particles : list Particle.t;
    concentrationLines : list ConcentrationLine.t;
    energyParticles : list Particle.t;
    idleTime : R;
    chargeProgress : R;
    selectedFortune : option Fortune;
    scene : Scene }.

Definition initScene : Scene :=
  mkScene true 1 (0, 0) false (1, 1) 0 (0, 0) (1, 1) (0, 0) 1 1 [].

Definition initState : GachaState :=
  mkState idle [] [] [] 0 0 None initScene.

(** [app.screen]. *)
Record Screen : Type := mkScreen { screenWidth : R; screenHeight : R }.

Definition getCenterX (scr : Screen) : R := screenWidth scr / 2.
Definition getCenterY (scr : Screen) : R := screenHeight scr / 2.

(** ** Spawning *)

(** The divisor of the two normalisations in [addEnergyParticle], as a
    function of the second value drawn.  It is 300 or more for every value
    [Math.random] returns; the statements about the quotients are made
    under that hypothesis. *)
Definition energyDistance (rd : R) : R := 300 + rd * 200.

(** [addEnergyParticle]: the particle pushed on [energyParticles]. *)
Definition addEnergyParticle (scr : Screen) : Rand Particle.t :=
  let cx := getCenterX scr in
  let cy := getCenterY scr in
  ra <- random ;;
  rd <- random ;;
  let angle := ra * PI * 2 in
  let distance := energyDistance rd in
  let x := cx + cos angle * distance in
  let y := cy + sin angle * distance in
  p <- Particle.new x y (Some 0xa5b4fc%Z) ;;
  rs <- random ;;
  let speed := rs * 5 + 3 in
  ret (Particle.mk (Particle.x p) (Particle.y p)
         ((cx - x) / distance * speed * 3)
         ((cy - y) / distance * speed * 3)
         (Particle.life p) (distance / (speed * 60)) (Particle.size p)
         (Particle.color p) 0 1).


Definition addConcentrationLine (scr : Screen) : Rand ConcentrationLine.t :=
  ConcentrationLine.new (getCenterX scr) (getCenterY scr).

(** The palette of the explosion. *)
Definition colors : list Z := [0xffd700; 0xff6b9d; 0x7dd3fc; 0xa5b4fc; 0xffffff]%Z.

(** The explosion loop: [k] iterations pushing on [acc]. *)
Fixpoint explode (k : nat) (cx cy : R) (acc : list Particle.t)
  : Rand (list Particle.t) :=
  match k with
  | O => ret acc
  | S k' =>
      rc <- random ;;
      let color := index colors (floor (rc * INR (List.length colors))) in
      p <- Particle.new cx cy color ;;
      explode k' cx cy (acc ++ [p])
  end.

(** The callback of the [energyParticles] filter. *)
Definition energyStep (delta cx cy : R) (p : Particle.t) : Particle.t * bool :=
  let (p', alive) := Particle.update delta p in
  let dist := hypot (Particle.x p' - cx) (Particle.y p' - cy) in
  if ltb dist 50 then (p', false) else (p', alive).

(** ** Scene setters *)

Definition startTween (tw : Tween) (sc : Scene) : Scene :=
  mkScene (instructionVisible sc) (instructionAlpha sc) (instructionPos sc)
    (cardVisible sc) (cardScale sc) (cardRotation sc) (cardPos sc)
    (layerScale sc) (layerPos sc) (gachaAlpha sc) (glowAlpha sc)
    (tweens sc ++ [tw]).

Definition setInstructionVisible (b : bool) (sc : Scene) : Scene :=
  mkScene b (instructionAlpha sc) (instructionPos sc)
    (cardVisible sc) (cardScale sc) (cardRotation sc) (cardPos sc)
    (layerScale sc) (layerPos sc) (gachaAlpha sc) (glowAlpha sc) (tweens sc).

Definition setInstructionAlpha (a : R) (sc : Scene) : Scene :=
  mkScene (instructionVisible sc) a (instructionPos sc)
    (cardVisible sc) (cardScale sc) (cardRotation sc) (cardPos sc)
    (layerScale sc) (layerPos sc) (gachaAlpha sc) (glowAlpha sc) (tweens sc).

Definition setInstructionPos (p : R * R) (sc : Scene) : Scene :=
  mkScene (instructionVisible sc) (instructionAlpha sc) p
    (cardVisible sc) (cardScale sc) (cardRotation sc) (cardPos sc)
    (layerScale sc) (layerPos sc) (gachaAlpha sc) (glowAlpha sc) (tweens sc).

Definition setCardVisible (b : bool) (sc : Scene) : Scene :=
  mkScene (instructionVisible sc) (instructionAlpha sc) (instructionPos sc)
    b (cardScale sc) (cardRotation sc) (cardPos sc)
    (layerScale sc) (layerPos sc) (gachaAlpha sc) (glowAlpha sc) (tweens sc).

Definition setCardScale (s : R * R) (sc : Scene) : Scene :=
  mkScene (instructionVisible sc) (instructionAlpha sc) (instructionPos sc)
    (cardVisible sc) s (cardRotation sc) (cardPos sc)
    (layerScale sc) (layerPos sc) (gachaAlpha sc) (glowAlpha sc) (tweens sc).

Definition setCardRotation (r : R) (sc : Scene) : Scene :=
  mkScene (instructionVisible sc) (instructionAlpha sc) (instructionPos sc)
    (cardVisible sc) (cardScale sc) r (cardPos sc)
    (layerScale sc) (layerPos sc) (gachaAlpha sc) (glowAlpha sc) (tweens sc).

Definition setCardPos (p : R * R) (sc : Scene) : Scene :=
  mkScene (instructionVisible sc) (instructionAlpha sc) (instructionPos sc)
    (cardVisible sc) (cardScale sc) (cardRotation sc) p
    (layerScale sc) (layerPos sc) (gachaAlpha sc) (glowAlpha sc) (tweens sc).

Definition setLayerScale (s : R * R) (sc : Scene) : Scene :=
  mkScene (instructionVisible sc) (instructionAlpha sc) (instructionPos sc)
    (cardVisible sc) (cardScale sc) (cardRotation sc) (cardPos sc)
    s (layerPos sc) (gachaAlpha sc) (glowAlpha sc) (tweens sc).

Definition setLayerPos (p : R * R) (sc : Scene) : Scene :=
  mkScene (instructionVisible sc) (instructionAlpha sc) (instructionPos sc)
    (cardVisible sc) (cardScale sc) (cardRotation sc) (cardPos sc)
    (layerScale sc) p (gachaAlpha sc) (glowAlpha sc) (tweens sc).

Definition setMachineAlpha (a : R) (sc : Scene) : Scene :=
  mkScene (instructionVisible sc) (instructionAlpha sc) (instructionPos sc)
    (cardVisible sc) (cardScale sc) (cardRotation sc) (cardPos sc)
    (layerScale sc) (layerPos sc) a a (tweens sc).

(** The part of [drawCard] that is not drawing:
    [cardContainer.position.set(cx, cy)]. *)
Definition drawCard (scr : Screen) (sc : Scene) : Scene :=
  setCardPos (getCenterX scr, getCenterY scr) sc.

(** ** handleTap *)

Definition handleTap (s : GachaState) : Rand GachaState :=
  match phase s with
  | idle =>
      r <- random ;;
      let fortune := index FORTUNES (floor (r * INR (List.length FORTUNES))) in
      let sc := setInstructionVisible false (scene s) in
      let sc := startTween (OverlayFade 0 0.7 0.5) sc in
      let sc := startTween (BloomTo 2 1.5 1.5 false 0) sc in
      ret (mkState charging (particles s) (concentrationLines s)
             (energyParticles s) (idleTime s) 0 fortune sc)
  | result =>
      let sc := setCardVisible false (scene s) in
      let sc := setInstructionVisible true sc in
      let sc := startTween (OverlayFade 0.7 0 0.5) sc in
      let sc := startTween (BloomTo 1.2 1.2 0.5 false 0) sc in
      ret (mkState idle [] (concentrationLines s) (energyParticles s)
             (idleTime s) (chargeProgress s) (selectedFortune s) sc)
  | charging | releasing => ret s
  end.

(** ** The ticker callback, one branch per phase *)

Definition tickIdle (delta : R) (scr : Screen) (s : GachaState)
  : Rand GachaState :=
  let idleTime' := idleTime s + delta * 0.02 in
  let sc := setInstructionAlpha (0.5 + sin (idleTime' * 2) * 0.3) (scene s) in
  let sc := setInstructionPos (getCenterX scr, getCenterY scr + 200) sc in
  ret (mkState idle (particles s) (concentrationLines s) (energyParticles s)
         idleTime' (chargeProgress s) (selectedFortune s) sc).

Definition tickCharging (delta : R) (scr : Screen) (s : GachaState)
  : Rand GachaState :=
  let progress := chargeProgress s + delta / 90 in
  r1 <- random ;;
  energy1 <- (if ltb r1 0.3
              then p <- addEnergyParticle scr ;; ret (energyParticles s ++ [p])
              else ret (energyParticles s)) ;;
  r2 <- random ;;
  lines1 <- (if ltb r2 0.2
             then l <- addConcentrationLine scr ;;
                  ret (concentrationLines s ++ [l])
             else ret (concentrationLines s)) ;;
  let energy2 :=
    filter_update (energyStep delta (getCenterX scr) (getCenterY scr)) energy1 in
  let lines2 := filter_update (ConcentrationLine.update delta) lines1 in
  let scale := 1 + progress * 0.1 in
  let sc := setLayerScale (scale, scale) (scene s) in
  let sc :=
    setLayerPos
      (getCenterX scr * (1 - fst (layerScale sc))
         + getCenterX scr * (fst (layerScale sc) - 1),
       getCenterY scr * (1 - snd (layerScale sc))
         + getCenterY scr * (snd (layerScale sc) - 1)) sc in
  if geb progress 1 then
    let sc := startTween (BackgroundFlash 0.3) sc in
    exploded <- explode 150 (getCenterX scr) (getCenterY scr) (particles s) ;;
    let sc := startTween (BloomTo 3 2 0.2 true 1) sc in
    ret (mkState releasing exploded [] [] (idleTime s) 0
           (selectedFortune s) sc)
  else
    ret (mkState charging (particles s) lines2 energy2 (idleTime s) progress
           (selectedFortune s) sc).

Definition tickReleasing (delta : R) (scr : Screen) (s : GachaState)
  : Rand GachaState :=
  let progress := chargeProgress s + delta / 60 in
  let particles' := filter_update (Particle.update delta) (particles s) in
  let sc := setMachineAlpha (1 - progress) (scene s) in
  match geb progress 1, selectedFortune s with
  | true, Some _ =>
      let sc := setLayerScale (1, 1) sc in
      let sc := setCardVisible true sc in
      let sc := setCardScale (0, 0) sc in
      let sc := setCardRotation PI sc in
      let sc := drawCard scr sc in
      let sc := startTween (CardScaleTo 1 1 0.8) sc in
      let sc := startTween (CardRotationTo 0 0.8) sc in
      let sc := startTween (BloomTo 1.5 1.3 0.5 false 0) sc in
      ret (mkState result particles' (concentrationLines s)
             (energyParticles s) (idleTime s) progress (selectedFortune s) sc)
  | _, _ =>
      ret (mkState releasing particles' (concentrationLines s)
             (energyParticles s) (idleTime s) progress (selectedFortune s) sc)
  end.

(** The ambient particle of the result phase. *)
Definition addAmbientParticle (scr : Screen) (f : Fortune) : Rand Particle.t :=
  ra <- random ;;
  rd <- random ;;
  let angle := ra * PI * 2 in
  let dist := 150 + rd * 50 in
  p <- Particle.new (getCenterX scr + cos angle * dist)
         (getCenterY scr + sin angle * dist) (Some (fcolor f)) ;;
  rx <- random ;;
  ry <- random ;;
  ret (Particle.mk (Particle.x p) (Particle.y p)
         ((rx - 0.5) * 2) (- ry * 2 - 1)
         (Particle.life p) (Particle.maxLife p) (Particle.size p)
         (Particle.color p) (-0.02) (Particle.friction p)).

Definition tickResult (delta : R) (scr : Screen) (s : GachaState)
  : Rand GachaState :=
  r <- random ;;
  particles1 <- match ltb r 0.1, selectedFortune s with
                | true, Some f =>
                    p <- addAmbientParticle scr f ;; ret (particles s ++ [p])
                | _, _ => ret (particles s)
                end ;;
  let particles2 := filter_update (Particle.update delta) particles1 in
  let sc := setCardRotation (sin (idleTime s * 0.5) * 0.02) (scene s) in
  ret (mkState result particles2 (concentrationLines s) (energyParticles s)
         (idleTime s + delta * 0.02) (chargeProgress s) (selectedFortune s) sc).

Definition tick (delta : R) (scr : Screen) (s : GachaState) : Rand GachaState :=
  match phase s with
  | idle => tickIdle delta scr s
  | charging => tickCharging delta scr s
  | releasing => tickReleasing delta scr s
  | result => tickResult delta scr s
  end.

(** ** handleResize *)

Definition handleResize (scr : Screen) (s : GachaState) : GachaState :=
  let sc := setInstructionPos (getCenterX scr, getCenterY scr + 200) (scene s) in
  let sc := match phase s, selectedFortune s with
            | result, Some _ => drawCard scr sc
            | _, _ => sc
            end in
  mkState (phase s) (particles s) (concentrationLines s) (energyParticles s)
    (idleTime s) (chargeProgress s) (selectedFortune s) sc.

(** ** Executions *)

(** What the host delivers: a pointer-down, a frame of the ticker with its
    [deltaTime] and the screen size at that moment, or a resize.  A tap and
    a frame carry the values [Math.random] returns during the call. *)
Inductive Event : Type :=
| Tap (rnd : nat -> R)
| Tick (delta : R) (scr : Screen) (rnd : nat -> R)
| Resize (scr : Screen).

Definition step (ev : Event) (s : GachaState) : GachaState :=
  match ev with
  | Tap rnd => run (handleTap s) rnd
  | Tick delta scr rnd => run (tick delta scr s) rnd
  | Resize scr => handleResize scr s
  end.

(** The state after a sequence of events, first event first. *)
Definition exec (evs : list Event) (s : GachaState) : GachaState :=
  fold_left (fun st ev => step ev st) evs s.

(** The states visited, the starting state excluded. *)
Fixpoint trace (evs : list Event) (s : GachaState) : list GachaState :=
  match evs with
  | [] => []
  | ev :: evs' => step ev s :: trace evs' (step ev s)
  end.

Definition valid_event (ev : Event) : Prop :=
  match ev with
  | Tap rnd => valid_rnd rnd
  | Tick _ _ rnd => valid_rnd rnd
  | Resize _ => True
  end.

(** * Drawing *)

(** The calls made on one [Graphics] object, in order.  A [fill] or
    [stroke] given no alpha has alpha 1. *)
Inductive DrawCmd : Type :=
| Clear
| Rect (x y w h : R)
| Circle (x y radius : R)
| MoveTo (x y : R)
| LineTo (x y : R)
| Fill (color : option Z) (alpha : R)
| Stroke (color : Z) (width alpha : R).

(** [drawParticles]: the calls on [effectGraphics]. *)
Definition drawParticles (s : GachaState) : list DrawCmd :=
  Clear
  :: flat_map
       (fun line =>
          let pos := ConcentrationLine.getPosition line in
          [MoveTo (ConcentrationLine.x pos) (ConcentrationLine.y pos);
           LineTo (ConcentrationLine.endX pos) (ConcentrationLine.endY pos);
           Stroke 0xffffff (ConcentrationLine.width line) 0.6])
       (concentrationLines s)
  ++ flat_map
       (fun p =>
          [Circle (Particle.x p) (Particle.y p)
             (Particle.size p * Particle.life p);
           Fill (Particle.color p) (Particle.life p * 0.8)])
       (energyParticles s)
  ++ flat_map
       (fun p =>
          [Circle (Particle.x p) (Particle.y p)
             (Particle.size p * Rmin 1 (Particle.life p * 2));
           Fill (Particle.color p) (Particle.life p * 0.9)])
       (particles s).

(** The star loop of [drawBackground]: [k] iterations after [acc]. *)
Fixpoint drawStars (k : nat) (scr : Screen) (acc : list DrawCmd)
  : Rand (list DrawCmd) :=
  match k with
  | O => ret acc
  | S k' =>
      rx <- random ;;
      ry <- random ;;
      rs <- random ;;
      ra <- random ;;
      drawStars k' scr
        (acc ++ [Circle (rx * screenWidth scr) (ry * screenHeight scr) (rs * 2);
                 Fill (Some 0xffffff%Z) (ra * 0.5 + 0.2)])
  end.

(** [drawBackground]: the calls on [bgGraphics]. *)
Definition drawBackground (scr : Screen) : Rand (list DrawCmd) :=
  drawStars 100 scr
    [Clear; Rect 0 0 (screenWidth scr) (screenHeight scr);
     Fill (Some 0x0a0a1a%Z) 1].



(** * Vocabulary of the statements *)

(** ** The cycle of phases *)

Definition successor (p : GachaPhase) : GachaPhase :=
  match p with
  | idle => charging
  | charging => releasing
  | releasing => result
  | result => idle
  end.

Definition predecessor (p : GachaPhase) : GachaPhase :=
  match p with
  | idle => result
  | charging => idle
  | releasing => charging
  | result => releasing
  end.

(** One observation of the phase variable after another: unchanged, or
    moved one edge along the cycle. *)
Definition cycle_edge (p q : GachaPhase) : Prop :=
  q = p \/ (q = successor p /\ p = predecessor q).

(** The phases [l], observed in this order after [p], follow the cycle. *)
Fixpoint along_cycle (p : GachaPhase) (l : list GachaPhase) : Prop :=
  match l with
  | [] => True
  | q :: l' => cycle_edge p q /\ along_cycle q l'
  end.

(** Every event of [evs] is delivered while the phase is not idle: the run
    stays inside one draw, up to and including the step that brings it back
    to idle. *)
Fixpoint within_cycle (s : GachaState) (evs : list Event) : Prop :=
  match evs with
  | [] => True
  | ev :: evs' => phase s <> idle /\ within_cycle (step ev s) evs'
  end.

Definition isTap (ev : Event) : bool :=
  match ev with
  | Tap _ => true
  | _ => false
  end.

(** ** Frames *)

(** The arguments of one ticker frame. *)
Record Frame : Type := mkFrame
  { frameDelta : R; frameScreen : Screen; frameRnd : nat -> R }.

Definition tickOf (f : Frame) : Event :=
  Tick (frameDelta f) (frameScreen f) (frameRnd f).

(** The particle has one of the colours of the explosion. *)
Definition inPalette (p : Particle.t) : Prop :=
  exists c : Z, Particle.color p = Some c /\ In c colors.

(** ** The phase and the progress in binary64 *)







(** ** Distances *)



(** Distance from a particle to the centre of the screen. *)
Definition distToCenter (scr : Screen) (p : Particle.t) : R :=
  hypot (Particle.x p - getCenterX scr) (Particle.y p - getCenterY scr).

(** ** Concrete runs *)

(** [Math.random] returning 0 at every call. *)
Definition zeros : nat -> R := fun _ => 0.

(** A screen of 800 by 600, centre (400, 300). *)
Definition screen0 : Screen := mkScreen 800 600.

(** A full draw: the tap, one frame of 90 ticks, one frame of 60 ticks. *)
Definition oneDraw : list Event :=
  [Tap zeros; Tick 90 screen0 zeros; Tick 60 screen0 zeros].

(** The line the constructor builds at (400, 300) when every value of
    [Math.random] is 0: angle 0, speed 4, length 50, width 1, distance
    400. *)
Definition line0 : ConcentrationLine.t :=
  run (ConcentrationLine.new 400 300) zeros.

(** An energy particle 10 to the right of the centre of [screen0], flying
    towards it, with most of its life left. *)
Definition nearParticle : Particle.t :=
  Particle.mk 410 300 (-9) 0 0.7 2 3 (Some 0xa5b4fc%Z) 0 1.

(** A charging state holding that particle. *)
Definition nearState : GachaState :=
  mkState charging [] [] [nearParticle] 0 0 (nth_error FORTUNES 0) initScene.

(** ** Lifetimes *)

(** Sum of a list of deltas. *)
Definition sumR (ds : list R) : R := fold_right Rplus 0 ds.

(** The particle after one [update] call per delta of [ds], in order. *)
Fixpoint particleAfter (ds : list R) (p : Particle.t) : Particle.t :=
  match ds with
  | [] => p
  | d :: ds' => particleAfter ds' (fst (Particle.update d p))
  end.

(** Every one of those calls returned true: a filter on [update] run once
    per delta has kept the particle. *)
Fixpoint survives (ds : list R) (p : Particle.t) : bool :=
  match ds with
  | [] => true
  | d :: ds' =>
      snd (Particle.update d p) && survives ds' (fst (Particle.update d p))
  end.

(** The same for a concentration line. *)
Fixpoint lineAfter (ds : list R) (l : ConcentrationLine.t)
  : ConcentrationLine.t :=
  match ds with
  | [] => l
  | d :: ds' => lineAfter ds' (fst (ConcentrationLine.update d l))
  end.

Fixpoint lineSurvives (ds : list R) (l : ConcentrationLine.t) : bool :=
  match ds with
  | [] => true
  | d :: ds' =>
      snd (ConcentrationLine.update d l)
      && lineSurvives ds' (fst (ConcentrationLine.update d l))
  end.

(** ** Stored collections *)

(** What the three collections hold, phase by phase. *)
Definition collections_ok (s : GachaState) : Prop :=
  (phase s = idle \/ phase s = charging -> particles s = []) /\
  (phase s <> charging ->
   energyParticles s = [] /\ concentrationLines s = []) /\
  Forall (fun p => 0 < Particle.life p) (particles s) /\
  Forall (fun p => 0 < Particle.life p) (energyParticles s) /\
  Forall (fun l => 0 < ConcentrationLine.distance l) (concentrationLines s).

(** ** Hosts that deliver no negative delta *)

Definition nonneg_event (ev : Event) : Prop :=
  match ev with
  | Tick delta _ _ => 0 <= delta
  | _ => True
  end.

(** The tweens a step issues, read off the phase before and after it. *)
Definition tweensIssued (ev : Event) (before after : GachaPhase) : list Tween :=
  match ev, before, after with
  | Tap _, idle, charging =>
      [OverlayFade 0 0.7 0.5; BloomTo 2 1.5 1.5 false 0]
  | Tap _, result, idle =>
      [OverlayFade 0.7 0 0.5; BloomTo 1.2 1.2 0.5 false 0]
  | Tick _ _ _, charging, releasing =>
      [BackgroundFlash 0.3; BloomTo 3 2 0.2 true 1]
  | Tick _ _ _, releasing, result =>
      [CardScaleTo 1 1 0.8; CardRotationTo 0 0.8; BloomTo 1.5 1.3 0.5 false 0]
  | _, _, _ => []
  end.

(** The tweens issued along a run, oldest first. *)
Fixpoint issuedAlong (evs : list Event) (s : GachaState) : list Tween :=
  match evs with
  | [] => []
  | ev :: evs' =>
      tweensIssued ev (phase s) (phase (step ev s))
      ++ issuedAlong evs' (step ev s)
  end.

(** The tweens a run of frames issues, read off the phase it starts in and
    the phase it ends in. *)
Definition tweensBetween (before after : GachaPhase) : list Tween :=
  match before, after with
  | charging, releasing =>
      [BackgroundFlash 0.3; BloomTo 3 2 0.2 true 1]
  | charging, result =>
      [BackgroundFlash 0.3; BloomTo 3 2 0.2 true 1;
       CardScaleTo 1 1 0.8; CardRotationTo 0 0.8; BloomTo 1.5 1.3 0.5 false 0]
  | releasing, result =>
      [CardScaleTo 1 1 0.8; CardRotationTo 0 0.8; BloomTo 1.5 1.3 0.5 false 0]
  | _, _ => []
  end.

(** ** Well-formed particles and lines *)

Definition particle_ok (p : Particle.t) : Prop :=
  0 < Particle.life p <= 1 /\ 0 < Particle.maxLife p /\
  2 <= Particle.size p <= 6.

Definition line_ok (l : ConcentrationLine.t) : Prop :=
  0 < ConcentrationLine.distance l <= 600 /\
  4 <= ConcentrationLine.speed l <= 12 /\
  50 <= ConcentrationLine.length l <= 150 /\
  1 <= ConcentrationLine.width l <= 4.

Definition entities_ok (s : GachaState) : Prop :=
  Forall particle_ok (particles s) /\
  Forall particle_ok (energyParticles s) /\
  Forall line_ok (concentrationLines s).

(** ** What a renderer can paint *)

(** A radius above 0, an alpha in (0,1], a stroke width above 0. *)
Definition paintable (cmd : DrawCmd) : Prop :=
  match cmd with
  | Circle _ _ radius => 0 < radius
  | Fill _ alpha => 0 < alpha <= 1
  | Stroke _ width alpha => 0 < width /\ 0 < alpha <= 1
  | _ => True
  end.

(** A star of the background of a screen: inside the screen, small and
    white. *)
Definition starOn (scr : Screen) (cmd : DrawCmd) : Prop :=
  match cmd with
  | Circle x y radius =>
      0 <= x < screenWidth scr /\ 0 <= y < screenHeight scr /\
      0 <= radius < 2
  | Fill color alpha => color = Some 0xffffff%Z /\ 0.2 <= alpha < 0.7
  | _ => False
  end.

(** * Properties *)

(** ** Comparisons *)

Lemma ltb_true (a b : R) : ltb a b = true <-> a < b.
Proof. unfold ltb; destruct (Rlt_dec a b); split; (easy || lra). Qed.

Lemma ltb_false (a b : R) : ltb a b = false <-> b <= a.
Proof. unfold ltb; destruct (Rlt_dec a b); split; (easy || lra). Qed.

Lemma gtb_true (a b : R) : gtb a b = true <-> b < a.
Proof. apply ltb_true. Qed.

Lemma gtb_false (a b : R) : gtb a b = false <-> a <= b.
Proof. apply ltb_false. Qed.

Lemma geb_true (a b : R) : geb a b = true <-> b <= a.
Proof. unfold geb; destruct (Rle_dec b a); split; (easy || lra). Qed.

Lemma geb_false (a b : R) : geb a b = false <-> a < b.
Proof. unfold geb; destruct (Rle_dec b a); split; (easy || lra). Qed.

(** ** Running the oracle monad *)

(** Exposes the pairs and tests a handler body is waiting on. *)
Ltac rand_step :=
  match goal with
  | |- context [let (_, _) := ?m in _] => destruct m eqn:?
  | |- context [if ?b then _ else _] => destruct b eqn:?
  | |- context [match ?o with Some _ => _ | None => _ end] => destruct o eqn:?
  end.

Ltac rand_run := unfold run, bind, random, ret; cbn [fst snd]; repeat rand_step.

(** ** The cycle of phases *)

Lemma handleTap_phase (s : GachaState) (rnd : nat -> R) (n : nat) :
  phase (fst (handleTap s rnd n)) =
  match phase s with
  | idle => charging
  | result => idle
  | p => p
  end.
Proof.
  unfold handleTap; destruct (phase s) eqn:E; rand_run; cbn; auto.
Qed.

Lemma tickCharging_phase delta scr s rnd n :
  phase (fst (tickCharging delta scr s rnd n)) =
  if geb (chargeProgress s + delta / 90) 1 then releasing else charging.
Proof.
  unfold tickCharging; rand_run; cbn; auto.
Qed.

Lemma tickReleasing_phase delta scr s rnd n :
  phase (fst (tickReleasing delta scr s rnd n)) =
  match geb (chargeProgress s + delta / 60) 1, selectedFortune s with
  | true, Some _ => result
  | _, _ => releasing
  end.
Proof.
  unfold tickReleasing; rand_run; cbn; auto.
Qed.

Lemma tick_phase delta scr s rnd n :
  cycle_edge (phase s) (phase (fst (tick delta scr s rnd n))).
Proof.
  unfold tick, cycle_edge; destruct (phase s) eqn:E.
  - left; unfold tickIdle; rand_run; reflexivity.
  - rewrite tickCharging_phase; destruct (geb _ _); cbn; auto.
  - rewrite tickReleasing_phase.
    destruct (geb _ _), (selectedFortune s); cbn; auto.
  - left; unfold tickResult; rand_run; reflexivity.
Qed.

Lemma step_phase (ev : Event) (s : GachaState) :
  cycle_edge (phase s) (phase (step ev s)).
Proof.
  destruct ev as [rnd | delta scr rnd | scr]; cbn [step].
  - unfold run; rewrite handleTap_phase.
    unfold cycle_edge; destruct (phase s); cbn; auto.
  - apply tick_phase.
  - left; reflexivity.
Qed.

(** C1. Along every execution, whatever the interleaving of frames, taps
    and resizes and whatever the state it starts in (the initial state
    included), two successive values of the phase variable are either equal
    or joined by an edge of the cycle idle, charging, releasing, result,
    idle: the new phase is the successor of the old one and the old one is
    the only predecessor of the new one. *)
Theorem phase_moves_along_cycle (evs : list Event) (s : GachaState) :
  along_cycle (phase s) (map phase (trace evs s)).
Proof.
  revert s; induction evs as [| ev evs IH]; intros s; cbn.
  - exact I.
  - split; [apply step_phase | apply IH].
Qed.

(** ** Taps during a draw *)

(** C2. In the phases charging and releasing the input handler returns the
    state it was given, every field of it, and calls [Math.random] not
    once. *)
Theorem tap_ignored_during_draw (s : GachaState) (rnd : nat -> R) (n : nat) :
  phase s = charging \/ phase s = releasing ->
  handleTap s rnd n = (s, n) /\ step (Tap rnd) s = s.
Proof.
  intros [H | H]; unfold step, run, handleTap; rewrite H; split; reflexivity.
Qed.

(** A tap right after the tap that started the draw changes nothing. *)
Lemma tap_ignored_during_draw_witness :
  let s := step (Tap (fun _ => 0)) initState in
  phase s = charging /\
  handleTap s (fun _ => 1 / 2) 3%nat = (s, 3%nat) /\
  step (Tap (fun _ => 1 / 2)) s = s.
Proof.
  intros s; split; [reflexivity |].
  apply (tap_ignored_during_draw s (fun _ => 1 / 2) 3%nat); left; reflexivity.
Defined.

(** ** The selected fortune *)

Lemma floor_bounds (x : R) (m : Z) :
  0 <= x < IZR m -> (0 <= floor x < m)%Z.
Proof.
  intros [H0 Hm]; unfold floor.
  destruct (base_Int_part x) as [Hle Hgt]; split.
  - assert (H : IZR (-1) < IZR (Int_part x)) by lra.
    apply lt_IZR in H; lia.
  - apply lt_IZR; lra.
Qed.

Lemma floor_random_bounds (r : R) (m : nat) :
  0 <= r < 1 -> (0 < m)%nat -> (0 <= floor (r * INR m) < Z.of_nat m)%Z.
Proof.
  intros Hr Hm; apply floor_bounds; rewrite <- INR_IZR_INZ.
  assert (0 < INR m) by (apply lt_0_INR; exact Hm); nra.
Qed.

Lemma index_in_range {A : Type} (l : list A) (i : Z) :
  (0 <= i < Z.of_nat (List.length l))%Z -> exists a, index l i = Some a /\ In a l.
Proof.
  intros Hi; unfold index.
  destruct (Z.ltb_spec i 0) as [Hneg | _]; [lia |].
  destruct (nth_error l (Z.to_nat i)) as [a |] eqn:E.
  - exists a; split; [reflexivity | eapply nth_error_In; exact E].
  - apply nth_error_None in E; lia.
Qed.

Lemma index_random {A : Type} (l : list A) (r : R) :
  0 <= r < 1 -> l <> [] ->
  exists a, index l (floor (r * INR (List.length l))) = Some a /\ In a l.
Proof.
  intros Hr Hl; apply index_in_range, floor_random_bounds; [exact Hr |].
  destruct l; [contradiction | cbn; lia].
Qed.

Lemma handleTap_selected (s : GachaState) (rnd : nat -> R) (n : nat) :
  selectedFortune (fst (handleTap s rnd n)) =
  match phase s with
  | idle => index FORTUNES (floor (rnd n * INR (List.length FORTUNES)))
  | _ => selectedFortune s
  end.
Proof.
  unfold handleTap; destruct (phase s); rand_run; reflexivity.
Qed.

Lemma tick_selected delta scr s rnd n :
  selectedFortune (fst (tick delta scr s rnd n)) = selectedFortune s.
Proof.
  unfold tick, tickIdle, tickCharging, tickReleasing, tickResult.
  destruct (phase s); rand_run; reflexivity.
Qed.

Lemma step_selected (ev : Event) (s : GachaState) :
  phase s <> idle -> selectedFortune (step ev s) = selectedFortune s.
Proof.
  intros Hs; destruct ev as [rnd | delta scr rnd | scr]; cbn [step].
  - unfold run; rewrite handleTap_selected.
    destruct (phase s); [contradiction | reflexivity ..].
  - apply tick_selected.
  - reflexivity.
Qed.

Lemma within_cycle_selected (evs : list Event) (s : GachaState) :
  within_cycle s evs ->
  Forall (fun st => selectedFortune st = selectedFortune s) (trace evs s).
Proof.
  revert s; induction evs as [| ev evs IH]; intros s H; cbn.
  - constructor.
  - destruct H as [Hs H]; constructor.
    + apply step_selected, Hs.
    + rewrite <- (step_selected ev s Hs); apply IH, H.
Qed.

(** C3. The tap that leaves idle writes [selectedFortune] (the entry of
    [FORTUNES] at the index drawn), and every later event of the same draw,
    frame, tap or resize, through charging, releasing and result and up to
    the step that returns to idle, leaves it as that tap wrote it. *)
Theorem selectedFortune_written_once (s : GachaState) (rnd : nat -> R)
    (evs : list Event) :
  phase s = idle ->
  within_cycle (step (Tap rnd) s) evs ->
  phase (step (Tap rnd) s) = charging /\
  selectedFortune (step (Tap rnd) s) = index FORTUNES (floor (rnd O * 6)) /\
  Forall (fun st => selectedFortune st = selectedFortune (step (Tap rnd) s))
    (trace evs (step (Tap rnd) s)).
Proof.
  intros Hs Hevs; repeat split.
  - cbn [step]; unfold run; rewrite handleTap_phase, Hs; reflexivity.
  - cbn [step]; unfold run; rewrite handleTap_selected, Hs.
    do 2 f_equal; cbn; lra.
  - apply within_cycle_selected, Hevs.
Qed.

(** ** Single steps, field by field *)

Lemma INR_FORTUNES : INR (List.length FORTUNES) = 6.
Proof. cbn; lra. Qed.

Lemma tap_idle_fields (s : GachaState) (rnd : nat -> R) :
  phase s = idle ->
  phase (step (Tap rnd) s) = charging /\
  chargeProgress (step (Tap rnd) s) = 0 /\
  particles (step (Tap rnd) s) = particles s /\
  selectedFortune (step (Tap rnd) s) = index FORTUNES (floor (rnd O * 6)).
Proof.
  intros Hs; cbn [step]; unfold run, handleTap; rewrite Hs; rand_run; cbn.
  rewrite <- INR_FORTUNES; auto.
Qed.

Lemma tick_idle_phase delta scr rnd (s : GachaState) :
  phase s = idle -> phase (step (Tick delta scr rnd) s) = idle.
Proof.
  intros Hs; cbn [step]; unfold run, tick, tickIdle; rewrite Hs; reflexivity.
Qed.

Lemma tick_charging_fields delta scr rnd (s : GachaState) :
  phase s = charging ->
  let s' := step (Tick delta scr rnd) s in
  let progress := chargeProgress s + delta / 90 in
  (progress < 1 ->
   phase s' = charging /\ chargeProgress s' = progress /\
   particles s' = particles s) /\
  (1 <= progress -> phase s' = releasing /\ chargeProgress s' = 0).
Proof.
  intros Hs; cbn [step]; unfold run, tick; rewrite Hs; cbn zeta.
  unfold tickCharging; split; intros Hp.
  - apply geb_false in Hp; rand_run; try congruence; cbn; auto.
  - apply geb_true in Hp; rand_run; try congruence; cbn; auto.
Qed.

Lemma tick_releasing_fields delta scr rnd (s : GachaState) (f : Fortune) :
  phase s = releasing ->
  selectedFortune s = Some f ->
  1 <= chargeProgress s + delta / 60 ->
  phase (step (Tick delta scr rnd) s) = result /\
  cardVisible (scene (step (Tick delta scr rnd) s)) = true.
Proof.
  intros Hs Hf Hp; cbn [step]; unfold run, tick; rewrite Hs.
  unfold tickReleasing; rewrite Hf.
  apply geb_true in Hp; rand_run; try congruence; cbn; auto.
Qed.

Lemma valid_zeros : valid_rnd zeros.
Proof. intros n; unfold zeros; lra. Qed.

Lemma oneDraw_states :
  let s1 := step (Tap zeros) initState in
  let s2 := step (Tick 90 screen0 zeros) s1 in
  let s3 := step (Tick 60 screen0 zeros) s2 in
  phase s1 = charging /\ phase s2 = releasing /\ phase s3 = result /\
  selectedFortune s1 <> None.
Proof.
  intros s1 s2 s3.
  destruct (tap_idle_fields initState zeros eq_refl) as (P1 & C1 & _ & F1).
  fold s1 in P1, C1, F1.
  destruct (tick_charging_fields 90 screen0 zeros s1 P1) as [_ H2].
  destruct H2 as [P2 C2]; [rewrite C1; lra |].
  fold s2 in P2, C2.
  assert (F2 : selectedFortune s2 = selectedFortune s1).
  { apply step_selected; rewrite P1; discriminate. }
  assert (F1' : exists f, selectedFortune s1 = Some f).
  { destruct (index_random FORTUNES (zeros O) (valid_zeros O))
      as (f & Hf & _); [discriminate |].
    exists f; rewrite F1, <- INR_FORTUNES; exact Hf. }
  destruct F1' as [f F1'].
  destruct (tick_releasing_fields 60 screen0 zeros s2 f P2
              (eq_trans F2 F1')) as [P3 _]; [rewrite C2; lra |].
  repeat split; auto.
  rewrite F1'; discriminate.
Qed.

(** From the initial state: the tap, then a frame of 90, a frame of 60 and
    the tap that returns to idle. *)
Lemma selectedFortune_written_once_witness :
  phase (step (Tap zeros) initState) = charging /\
  selectedFortune (step (Tap zeros) initState)
  = index FORTUNES (floor (zeros O * 6)) /\
  Forall (fun st => selectedFortune st
                    = selectedFortune (step (Tap zeros) initState))
    (trace (tl oneDraw ++ [Tap zeros]) (step (Tap zeros) initState)).
Proof.
  apply (selectedFortune_written_once initState zeros
           (tl oneDraw ++ [Tap zeros])).
  - reflexivity.
  - destruct oneDraw_states as (P1 & P2 & P3 & _).
    cbn [oneDraw tl app within_cycle]; repeat split.
    + rewrite P1; discriminate.
    + rewrite P2; discriminate.
    + rewrite P3; discriminate.
Defined.

(** ** The entry survives the return to idle *)

Lemma exec_snoc (evs : list Event) (ev : Event) (s : GachaState) :
  exec (evs ++ [ev]) s = step ev (exec evs s).
Proof. unfold exec; rewrite fold_left_app; reflexivity. Qed.

Lemma step_selected_Some (ev : Event) (s : GachaState) :
  valid_event ev ->
  selectedFortune s <> None -> selectedFortune (step ev s) <> None.
Proof.
  intros Hv Hs; destruct ev as [rnd | delta scr rnd | scr]; cbn [step].
  - unfold run; rewrite handleTap_selected.
    destruct (phase s); auto.
    destruct (index_random FORTUNES (rnd O) (Hv O)) as (f & Hf & _);
      [discriminate |].
    rewrite Hf; discriminate.
  - unfold run; rewrite tick_selected; exact Hs.
  - exact Hs.
Qed.

Lemma before_first_tap (evs : list Event) :
  existsb isTap evs = false ->
  selectedFortune (exec evs initState) = None /\
  phase (exec evs initState) = idle.
Proof.
  induction evs as [| ev evs IH] using rev_ind; intros H.
  - split; reflexivity.
  - rewrite existsb_app in H; apply orb_false_iff in H as [H1 H2].
    destruct (IH H1) as [IHf IHp]; rewrite exec_snoc.
    destruct ev as [rnd | delta scr rnd | scr]; [discriminate | |].
    + split; [| apply tick_idle_phase, IHp].
      cbn [step]; unfold run; rewrite tick_selected; exact IHf.
    + split; [exact IHf | exact IHp].
Qed.

Lemma after_first_tap (evs : list Event) :
  Forall valid_event evs ->
  existsb isTap evs = true ->
  selectedFortune (exec evs initState) <> None.
Proof.
  induction evs as [| ev evs IH] using rev_ind; intros Hv H.
  - discriminate.
  - apply Forall_app in Hv as [Hv Hev]; inversion_clear Hev as [| ? ? Hev' _].
    rewrite exec_snoc.
    destruct (existsb isTap evs) eqn:E.
    + apply step_selected_Some; auto.
    + destruct (before_first_tap evs E) as [_ Hp].
      rewrite existsb_app, E in H; cbn in H.
      destruct ev as [rnd | delta scr rnd | scr]; try discriminate.
      destruct (tap_idle_fields _ rnd Hp) as (_ & _ & _ & Hf); rewrite Hf.
      destruct (index_random FORTUNES (rnd O) (Hev' O)) as (f & Hf' & _);
        [discriminate |].
      rewrite INR_FORTUNES in Hf'; rewrite Hf'; discriminate.
Qed.

(** C10. In a state reached from the initial one by events whose random
    values lie in [0,1): [selectedFortune] is null exactly when no tap has
    been delivered yet, and the phase is then idle; and when the phase is
    result, a tap moves to idle and leaves [selectedFortune] as it was,
    which is an entry and not null. *)
Theorem selectedFortune_kept_at_reset (evs : list Event) (rnd : nat -> R) :
  Forall valid_event evs ->
  let s := exec evs initState in
  (selectedFortune s = None <-> existsb isTap evs = false) /\
  (selectedFortune s = None -> phase s = idle) /\
  (phase s = result ->
   phase (step (Tap rnd) s) = idle /\
   selectedFortune (step (Tap rnd) s) = selectedFortune s /\
   selectedFortune s <> None).
Proof.
  intros Hv s.
  assert (Hiff : selectedFortune s = None <-> existsb isTap evs = false).
  { split; intros H.
    - destruct (existsb isTap evs) eqn:E; [| reflexivity].
      exfalso; exact (after_first_tap evs Hv E H).
    - apply before_first_tap, H. }
  split; [exact Hiff |]; split.
  - intros H; apply Hiff in H; apply before_first_tap, H.
  - intros Hp; repeat split.
    + cbn [step]; unfold run; rewrite handleTap_phase, Hp; reflexivity.
    + apply step_selected; rewrite Hp; discriminate.
    + intros H; apply Hiff in H.
      destruct (before_first_tap evs H) as [_ Hi]; fold s in Hi; congruence.
Qed.

(** After [oneDraw] the phase is result, and the next tap keeps the entry. *)
Lemma selectedFortune_kept_at_reset_witness :
  let s := exec oneDraw initState in
  phase s = result /\
  phase (step (Tap zeros) s) = idle /\
  selectedFortune (step (Tap zeros) s) = selectedFortune s /\
  selectedFortune s <> None.
Proof.
  intros s.
  assert (Hv : Forall valid_event oneDraw).
  { unfold oneDraw; repeat (apply Forall_cons; [exact valid_zeros |]).
    apply Forall_nil. }
  destruct (selectedFortune_kept_at_reset oneDraw zeros Hv) as (_ & _ & H).
  destruct oneDraw_states as (_ & _ & P3 & _).
  split; [exact P3 | exact (H P3)].
Defined.

(** ** Particle.update *)

(** C5. One call of [update(delta)], for every particle and every delta:
    [vy] grows by [gravity * delta]; then [vx] and [vy] are multiplied by
    [friction]; then the position moves by the new velocity times [delta];
    then [life] drops by [delta / (60 * maxLife)]; the other fields are
    left alone; and the call returns true exactly when the new [life] is
    above 0. *)
Theorem particle_update_exact (p : Particle.t) (delta : R) :
  let p' := fst (Particle.update delta p) in
  let alive := snd (Particle.update delta p) in
  Particle.vy p' = (Particle.vy p + Particle.gravity p * delta)
                   * Particle.friction p /\
  Particle.vx p' = Particle.vx p * Particle.friction p /\
  Particle.x p' = Particle.x p + Particle.vx p' * delta /\
  Particle.y p' = Particle.y p + Particle.vy p' * delta /\
  Particle.life p' = Particle.life p - delta / (60 * Particle.maxLife p) /\
  (alive = true <-> 0 < Particle.life p') /\
  Particle.maxLife p' = Particle.maxLife p /\
  Particle.size p' = Particle.size p /\
  Particle.color p' = Particle.color p /\
  Particle.gravity p' = Particle.gravity p /\
  Particle.friction p' = Particle.friction p.
Proof.
  cbn; repeat split; try reflexivity.
  - unfold Rdiv; rewrite Rinv_mult; ring.
  - apply gtb_true.
  - apply gtb_true.
Qed.

(** ** The layer position while charging *)

(** C9. A frame delivered in the charging phase sets the scale of the gacha
    layer to [1 + progress * 0.1] on both axes and its position to (0,0),
    whatever the screen size: [c * (1 - k) + c * (k - 1)] is 0 for all [c]
    and [k]. *)
Theorem charging_layer_position_zero (s : GachaState) (delta : R)
    (scr : Screen) (rnd : nat -> R) :
  phase s = charging ->
  let s' := step (Tick delta scr rnd) s in
  let k := 1 + (chargeProgress s + delta / 90) * 0.1 in
  layerScale (scene s') = (k, k) /\
  layerPos (scene s') = (0, 0) /\
  layerPos (scene s')
  = (getCenterX scr * (1 - k) + getCenterX scr * (k - 1),
     getCenterY scr * (1 - k) + getCenterY scr * (k - 1)) /\
  forall c : R, c * (1 - k) + c * (k - 1) = 0.
Proof.
  intros Hs; cbn [step]; unfold run, tick; rewrite Hs; cbn zeta.
  unfold tickCharging; rand_run; cbn; repeat split;
    try reflexivity; try (f_equal; ring); intros; ring.
Qed.

(** The first frame of a draw on [screen0]. *)
Lemma charging_layer_position_zero_witness :
  let s := step (Tap zeros) initState in
  let s' := step (Tick 1 screen0 zeros) s in
  layerScale (scene s') = (1 + (chargeProgress s + 1 / 90) * 0.1,
                           1 + (chargeProgress s + 1 / 90) * 0.1) /\
  layerPos (scene s') = (0, 0).
Proof.
  intros s s'.
  destruct (charging_layer_position_zero s 1 screen0 zeros eq_refl)
    as (Hk & H0 & _).
  split; [exact Hk | exact H0].
Defined.

(** ** ConcentrationLine *)




Lemma line_update_keeps (delta : R) (l : ConcentrationLine.t) :
  let l' := fst (ConcentrationLine.update delta l) in
  ConcentrationLine.speed l' = ConcentrationLine.speed l /\
  ConcentrationLine.length l' = ConcentrationLine.length l /\
  ConcentrationLine.angle l' = ConcentrationLine.angle l /\
  ConcentrationLine.targetX l' = ConcentrationLine.targetX l /\
  ConcentrationLine.targetY l' = ConcentrationLine.targetY l.
Proof. cbn; repeat split. Qed.




(** ** Energy particles: absorption at the orb *)

Lemma filter_update_In {A : Type} (f : A -> A * bool) (l : list A) (q : A) :
  In q (filter_update f l) <-> exists a, In a l /\ f a = (q, true).
Proof.
  induction l as [| a l IH]; cbn.
  - split; [contradiction | intros (a & [] & _)].
  - destruct (f a) as [a' keep] eqn:E; split.
    + intros H.
      assert (H' : (keep = true /\ a' = q) \/ In q (filter_update f l)).
      { destruct keep; [destruct H as [H | H]; auto | auto]. }
      destruct H' as [[Hk Ha] | H'].
      * exists a; subst; auto.
      * apply IH in H' as (b & Hb & Hfb); exists b; auto.
    + intros (b & [Hb | Hb] & Hfb).
      * subst b; rewrite E in Hfb; injection Hfb as -> ->; left; reflexivity.
      * assert (In q (filter_update f l)) by (apply IH; exists b; auto).
        destruct keep; [right |]; assumption.
Qed.

Lemma update_alive (delta : R) (p : Particle.t) :
  snd (Particle.update delta p) = true
  <-> 0 < Particle.life (fst (Particle.update delta p)).
Proof. apply gtb_true. Qed.

Lemma energyStep_spec (delta : R) (scr : Screen) (p : Particle.t) :
  let p' := fst (Particle.update delta p) in
  fst (energyStep delta (getCenterX scr) (getCenterY scr) p) = p' /\
  (snd (energyStep delta (getCenterX scr) (getCenterY scr) p) = true <->
   50 <= distToCenter scr p' /\ 0 < Particle.life p').
Proof.
  unfold energyStep, distToCenter.
  destruct (Particle.update delta p) as [p' alive] eqn:E; cbn [fst snd].
  assert (Ha : alive = true <-> 0 < Particle.life p').
  { pose proof (update_alive delta p) as H; rewrite E in H.
    cbn [fst snd] in H; exact H. }
  destruct (ltb _ 50) eqn:D; cbn [fst snd]; split; try reflexivity.
  - apply ltb_true in D; split; [discriminate | intros [H _]; lra].
  - apply ltb_false in D; rewrite Ha; tauto.
Qed.

Lemma tick_charging_energy delta scr rnd (s : GachaState) :
  phase s = charging ->
  exists spawned,
    energyParticles (step (Tick delta scr rnd) s)
    = if geb (chargeProgress s + delta / 90) 1 then []
      else filter_update (energyStep delta (getCenterX scr) (getCenterY scr))
             (energyParticles s ++ spawned).
Proof.
  intros Hs; cbn [step]; unfold run, tick; rewrite Hs.
  unfold tickCharging, bind at 1 2; cbn [random].
  destruct (ltb (rnd O) 0.3).
  - unfold bind at 1.
    destruct (addEnergyParticle scr rnd 1%nat) as [p n1].
    exists [p]; rand_run; reflexivity.
  - exists []; rewrite app_nil_r; rand_run; reflexivity.
Qed.

(** C7. For a particle of [energyParticles] and a frame delivered in the
    charging phase: if after its [update] the particle is less than 50 from
    the centre it is not in the collection after the frame, whatever its
    [life]; if its [life] is 0 or less it is not in the collection either,
    whatever its distance; and if neither holds, and charging goes on, it
    is still there. *)
Theorem energy_particle_absorbed (s : GachaState) (delta : R) (scr : Screen)
    (rnd : nat -> R) (p : Particle.t) :
  phase s = charging ->
  In p (energyParticles s) ->
  let p' := fst (Particle.update delta p) in
  let s' := step (Tick delta scr rnd) s in
  (distToCenter scr p' < 50 -> ~ In p' (energyParticles s')) /\
  (Particle.life p' <= 0 -> ~ In p' (energyParticles s')) /\
  (50 <= distToCenter scr p' -> 0 < Particle.life p' ->
   chargeProgress s + delta / 90 < 1 -> In p' (energyParticles s')).
Proof.
  intros Hs Hp p' s'.
  destruct (tick_charging_energy delta scr rnd s Hs) as [spawned He].
  fold s' in He.
  assert (Hin : forall q, In q (energyParticles s') ->
                50 <= distToCenter scr q /\ 0 < Particle.life q).
  { intros q; rewrite He; destruct (geb _ 1); [contradiction |].
    intros H; apply filter_update_In in H as (a & _ & Ha).
    destruct (energyStep_spec delta scr a) as [H1 H2].
    rewrite Ha in H1, H2; cbn [fst snd] in H1, H2.
    rewrite H1; apply H2; reflexivity. }
  repeat split.
  - intros Hd H; apply Hin in H; lra.
  - intros Hl H; apply Hin in H; lra.
  - intros Hd Hl Hc; rewrite He.
    apply geb_false in Hc; rewrite Hc.
    apply filter_update_In; exists p; split; [apply in_or_app; auto |].
    destruct (energyStep_spec delta scr p) as [H1 H2]; fold p' in H1, H2.
    destruct (energyStep delta (getCenterX scr) (getCenterY scr) p)
      as [q keep]; cbn [fst snd] in H1, H2.
    subst q; f_equal; apply H2; auto.
Qed.

Lemma hypot_lt (a b c : R) : 0 <= c -> a * a + b * b < c * c -> hypot a b < c.
Proof.
  intros Hc H; unfold hypot; rewrite <- (sqrt_square c Hc).
  apply sqrt_lt_1; nra.
Qed.

(** [nearParticle] is alive after its update and 1 from the centre: the
    frame removes it. *)
Lemma energy_particle_absorbed_witness :
  let p' := fst (Particle.update 1 nearParticle) in
  0 < Particle.life p' /\
  distToCenter screen0 p' < 50 /\
  ~ In p' (energyParticles (step (Tick 1 screen0 zeros) nearState)).
Proof.
  intros p'.
  assert (Hd : distToCenter screen0 p' < 50).
  { unfold distToCenter, getCenterX, getCenterY; cbn; apply hypot_lt; lra. }
  split; [cbn; lra |]; split; [exact Hd |].
  destruct (energy_particle_absorbed nearState 1 screen0 zeros nearParticle
              eq_refl (or_introl eq_refl)) as (H & _ & _).
  exact (H Hd).
Defined.

(** ** Energy particles: the direction towards the orb *)




(** ** Charging up to the release *)

Lemma explode_spec (k : nat) (cx cy : R) (rnd : nat -> R) :
  valid_rnd rnd ->
  forall (acc : list Particle.t) (n : nat),
  exists burst,
    fst (explode k cx cy acc rnd n) = acc ++ burst /\
    List.length burst = k /\
    Forall inPalette burst.
Proof.
  intros Hv; induction k as [| k IH]; intros acc n.
  - exists []; cbn; rewrite app_nil_r; auto.
  - cbn [explode]; unfold bind at 1; cbn [random].
    set (c := index colors (floor (rnd n * INR (List.length colors)))).
    unfold bind at 1, Particle.new at 1, bind, random, ret.
    match goal with
    | |- context [explode k cx cy (acc ++ [?p]) rnd ?m] =>
        destruct (IH (acc ++ [p]) m) as (burst & Hb & Hl & Hp);
        exists (p :: burst)
    end.
    rewrite Hb, <- app_assoc; repeat split.
    + cbn; rewrite Hl; reflexivity.
    + constructor; [| exact Hp].
      destruct (index_random colors (rnd n) (Hv n)) as (z & Hz & Hin);
        [discriminate |].
      exists z; split; [exact Hz | exact Hin].
Qed.

Lemma exec_cons (ev : Event) (evs : list Event) (s : GachaState) :
  exec (ev :: evs) s = exec evs (step ev s).
Proof. reflexivity. Qed.

Lemma tick_charging_particles delta scr rnd (s : GachaState) :
  phase s = charging ->
  1 <= chargeProgress s + delta / 90 ->
  exists n,
    particles (step (Tick delta scr rnd) s)
    = fst (explode 150 (getCenterX scr) (getCenterY scr) (particles s) rnd n).
Proof.
  intros Hs Hp; cbn [step]; unfold run, tick; rewrite Hs.
  unfold tickCharging; apply geb_true in Hp.
  rand_run; try congruence;
    match goal with
    | H : explode _ _ _ _ _ ?n = _ |- _ => exists n; rewrite H; reflexivity
    end.
Qed.

Lemma tick_charging_release delta scr rnd (s : GachaState) :
  phase s = charging ->
  valid_rnd rnd ->
  1 <= chargeProgress s + delta / 90 ->
  let s' := step (Tick delta scr rnd) s in
  phase s' = releasing /\
  exists burst,
    particles s' = particles s ++ burst /\
    List.length burst = 150%nat /\
    Forall inPalette burst.
Proof.
  intros Hs Hv Hp s'.
  destruct (tick_charging_fields delta scr rnd s Hs) as [_ Hgo].
  destruct (Hgo Hp) as [P _]; fold s' in P.
  destruct (tick_charging_particles delta scr rnd s Hs Hp) as [n Hn].
  fold s' in Hn.
  destruct (explode_spec 150 (getCenterX scr) (getCenterY scr) rnd Hv
              (particles s) n) as (burst & Hb & Hl & Hpal).
  split; [exact P |].
  exists burst; rewrite Hn, Hb; auto.
Qed.

(** Frames on which the phase is past charging. *)
Lemma tick_past_charging delta scr rnd (s : GachaState) :
  phase s = releasing \/ phase s = result ->
  phase (step (Tick delta scr rnd) s) = releasing \/
  phase (step (Tick delta scr rnd) s) = result.
Proof.
  intros [Hs | Hs]; cbn [step]; unfold run, tick; rewrite Hs.
  - rewrite tickReleasing_phase.
    destruct (geb _ _), (selectedFortune s); auto.
  - right; unfold tickResult; rand_run; reflexivity.
Qed.

Lemma frames_past_charging (frames : list Frame) (s : GachaState) :
  phase s = releasing \/ phase s = result ->
  phase (exec (map tickOf frames) s) = releasing \/
  phase (exec (map tickOf frames) s) = result.
Proof.
  revert s; induction frames as [| f frames IH]; intros s Hs.
  - exact Hs.
  - cbn [map]; rewrite exec_cons; apply IH, tick_past_charging, Hs.
Qed.





(** * Further properties *)

(** ** Particles over several updates *)

Lemma sumR_nonneg (ds : list R) : Forall (fun d => 0 <= d) ds -> 0 <= sumR ds.
Proof.
  induction 1 as [| d ds Hd _ IH]; unfold sumR in *; cbn; lra.
Qed.

Lemma particleAfter_constants (ds : list R) (p : Particle.t) :
  Particle.maxLife (particleAfter ds p) = Particle.maxLife p /\
  Particle.size (particleAfter ds p) = Particle.size p /\
  Particle.color (particleAfter ds p) = Particle.color p /\
  Particle.gravity (particleAfter ds p) = Particle.gravity p /\
  Particle.friction (particleAfter ds p) = Particle.friction p.
Proof.
  revert p; induction ds as [| d ds IH]; intros p; cbn [particleAfter].
  - repeat split.
  - destruct (IH (fst (Particle.update d p))) as (H1 & H2 & H3 & H4 & H5).
    rewrite H1, H2, H3, H4, H5; repeat split.
Qed.

Lemma particleAfter_life (ds : list R) (p : Particle.t) :
  Particle.life (particleAfter ds p)
  = Particle.life p - sumR ds / (60 * Particle.maxLife p).
Proof.
  revert p; induction ds as [| d ds IH]; intros p; cbn [particleAfter sumR fold_right].
  - unfold Rdiv; ring.
  - rewrite IH; cbn [Particle.update fst Particle.life Particle.maxLife].
    fold (sumR ds); unfold Rdiv; rewrite Rinv_mult; ring.
Qed.

Lemma survives_iff_life (ds : list R) (p : Particle.t) :
  0 < Particle.maxLife p ->
  0 < Particle.life p ->
  Forall (fun d => 0 <= d) ds ->
  survives ds p = true <-> 0 < Particle.life (particleAfter ds p).
Proof.
  intros Hm; revert p Hm; induction ds as [| d ds IH]; intros p Hm Hl Hds.
  - cbn; tauto.
  - inversion_clear Hds as [| ? ? Hd Hds'].
    cbn [survives particleAfter].
    pose proof (update_alive d p) as Ha.
    assert (Hm1 : Particle.maxLife (fst (Particle.update d p))
                  = Particle.maxLife p) by reflexivity.
    destruct (snd (Particle.update d p)) eqn:E; cbn [andb].
    + apply IH; [rewrite Hm1; exact Hm | apply Ha; reflexivity | exact Hds'].
    + split; [discriminate |].
      assert (Hl1 : Particle.life (fst (Particle.update d p)) <= 0).
      { apply Rnot_lt_le; intros H; apply Ha in H; discriminate. }
      rewrite particleAfter_life, Hm1.
      pose proof (sumR_nonneg ds Hds') as Hs.
      assert (0 <= sumR ds / (60 * Particle.maxLife p)).
      { apply Rmult_le_pos; [exact Hs |].
        apply Rlt_le, Rinv_0_lt_compat; lra. }
      lra.
Qed.

(** X1. For a live particle with a positive [maxLife] and deltas that are
    not negative: [life] never rises over a sequence of [update] calls, and
    every call has returned true exactly when the [life] after the last
    call is still positive; a call that has returned false is never
    followed by a call on a positive [life]. *)
Theorem particle_kept_iff_alive (ds : list R) (p : Particle.t) :
  0 < Particle.maxLife p ->
  0 < Particle.life p ->
  Forall (fun d => 0 <= d) ds ->
  Particle.life (particleAfter ds p) <= Particle.life p /\
  (survives ds p = true <-> 0 < Particle.life (particleAfter ds p)).
Proof.
  intros Hm Hl Hds; split.
  - rewrite particleAfter_life.
    pose proof (sumR_nonneg ds Hds) as Hs.
    assert (0 <= sumR ds / (60 * Particle.maxLife p)).
    { apply Rmult_le_pos; [exact Hs |].
      apply Rlt_le, Rinv_0_lt_compat; lra. }
    lra.
  - apply survives_iff_life; assumption.
Qed.

(** A particle with a full life that lasts one second, over two frames of
    20 ticks. *)
Lemma particle_kept_iff_alive_witness :
  let p := Particle.mk 0 0 1 1 1 1 2 None 0.15 0.98 in
  Particle.life (particleAfter [20; 20] p) <= 1 /\
  survives [20; 20] p = true.
Proof.
  intros p.
  assert (Hm : 0 < Particle.maxLife p) by (cbn; lra).
  assert (Hl : 0 < Particle.life p) by (cbn; lra).
  assert (Hds : Forall (fun d => 0 <= d) [20; 20]).
  { repeat (apply Forall_cons; [lra |]); apply Forall_nil. }
  destruct (particle_kept_iff_alive [20; 20] p Hm Hl Hds) as [H1 H2].
  split; [exact H1 |].
  apply H2; cbn; lra.
Defined.

(** X2. Friction is applied once per call, not per unit of time: after [n]
    calls of [update] the horizontal velocity is the first one times
    [friction ^ n], whatever the deltas were; and [maxLife], [size],
    [color], [gravity] and [friction] are never changed. *)
Theorem particle_friction_per_call (ds : list R) (p : Particle.t) :
  Particle.vx (particleAfter ds p)
  = Particle.vx p * Particle.friction p ^ List.length ds /\
  Particle.maxLife (particleAfter ds p) = Particle.maxLife p /\
  Particle.size (particleAfter ds p) = Particle.size p /\
  Particle.color (particleAfter ds p) = Particle.color p /\
  Particle.gravity (particleAfter ds p) = Particle.gravity p /\
  Particle.friction (particleAfter ds p) = Particle.friction p.
Proof.
  split; [| apply particleAfter_constants].
  revert p; induction ds as [| d ds IH]; intros p; cbn [particleAfter List.length pow].
  - ring.
  - rewrite IH; cbn [Particle.update fst Particle.vx Particle.friction]; ring.
Qed.

(** ** Particles as the constructor builds them *)

Lemma particle_new_fields (x0 y0 : R) (c : option Z) (rnd : nat -> R) (n : nat) :
  let p := fst (Particle.new x0 y0 c rnd n) in
  Particle.x p = x0 /\ Particle.y p = y0 /\
  Particle.vx p = cos (rnd n * PI * 2) * (rnd (S n) * 15 + 5) /\
  Particle.vy p = sin (rnd n * PI * 2) * (rnd (S n) * 15 + 5) /\
  Particle.life p = 1 /\
  Particle.maxLife p = rnd (S (S n)) * 2 + 1 /\
  Particle.size p = rnd (S (S (S n))) * 4 + 2 /\
  Particle.color p = c /\
  Particle.gravity p = 0.15 /\ Particle.friction p = 0.98.
Proof. cbn; repeat split. Qed.

(** X3. For values of [Math.random] in [0,1) the constructor builds a
    particle at the given point with the given colour and a full life; its
    velocity is the direction of the angle drawn times a speed from 5 to
    20, its [maxLife] lies from 1 to 3, its [size] from 2 to 6, its gravity
    is 0.15 and its friction 0.98. *)
Theorem particle_new_ranges (x0 y0 : R) (c : option Z) (rnd : nat -> R)
    (n : nat) :
  valid_rnd rnd ->
  let p := fst (Particle.new x0 y0 c rnd n) in
  let angle := rnd n * PI * 2 in
  let speed := rnd (S n) * 15 + 5 in
  Particle.x p = x0 /\ Particle.y p = y0 /\ Particle.color p = c /\
  Particle.life p = 1 /\
  Particle.vx p = cos angle * speed /\ Particle.vy p = sin angle * speed /\
  5 <= speed <= 20 /\
  1 <= Particle.maxLife p <= 3 /\
  2 <= Particle.size p <= 6 /\
  Particle.gravity p = 0.15 /\ Particle.friction p = 0.98.
Proof.
  intros Hv p angle speed.
  destruct (particle_new_fields x0 y0 c rnd n)
    as (Hx & Hy & Hvx & Hvy & Hl & Hm & Hz & Hc & Hg & Hf).
  fold p in Hx, Hy, Hvx, Hvy, Hl, Hm, Hz, Hc, Hg, Hf.
  pose proof (Hv (S n)) as H1; pose proof (Hv (S (S n))) as H2.
  pose proof (Hv (S (S (S n)))) as H3.
  unfold speed; repeat split; try assumption; lra.
Qed.

(** The particle built at (400, 300) when every value drawn is 0: it flies
    to the right at speed 5. *)
Lemma particle_new_ranges_witness :
  let p := fst (Particle.new 400 300 (Some 0xffd700%Z) zeros O) in
  Particle.life p = 1 /\
  Particle.vx p = cos (zeros O * PI * 2) * (zeros 1%nat * 15 + 5) /\
  1 <= Particle.maxLife p <= 3 /\
  2 <= Particle.size p <= 6.
Proof.
  intros p.
  destruct (particle_new_ranges 400 300 (Some 0xffd700%Z) zeros O valid_zeros)
    as (_ & _ & _ & Hl & Hvx & _ & _ & Hm & Hz & _).
  split; [exact Hl |]; split; [exact Hvx |]; split; [exact Hm | exact Hz].
Defined.

(** ** Concentration lines over several updates *)

Lemma lineAfter_fields (ds : list R) (l : ConcentrationLine.t) :
  ConcentrationLine.distance (lineAfter ds l)
  = ConcentrationLine.distance l - ConcentrationLine.speed l * sumR ds /\
  ConcentrationLine.speed (lineAfter ds l) = ConcentrationLine.speed l /\
  ConcentrationLine.length (lineAfter ds l) = ConcentrationLine.length l /\
  ConcentrationLine.angle (lineAfter ds l) = ConcentrationLine.angle l /\
  ConcentrationLine.targetX (lineAfter ds l) = ConcentrationLine.targetX l /\
  ConcentrationLine.targetY (lineAfter ds l) = ConcentrationLine.targetY l.
Proof.
  revert l; induction ds as [| d ds IH]; intros l;
    cbn [lineAfter sumR fold_right].
  - repeat split; ring.
  - destruct (IH (fst (ConcentrationLine.update d l)))
      as (H1 & H2 & H3 & H4 & H5 & H6).
    rewrite H1, H2, H3, H4, H5, H6; cbn; fold (sumR ds).
    repeat split; ring.
Qed.

Lemma lineSurvives_iff (ds : list R) (l : ConcentrationLine.t) :
  0 <= ConcentrationLine.speed l ->
  0 < ConcentrationLine.distance l ->
  Forall (fun d => 0 <= d) ds ->
  lineSurvives ds l = true <->
  ConcentrationLine.speed l * sumR ds < ConcentrationLine.distance l.
Proof.
  revert l; induction ds as [| d ds IH]; intros l Hs Hd Hds.
  - cbn; split; [intros _; lra | reflexivity].
  - inversion_clear Hds as [| ? ? H0 Hds'].
    pose proof (sumR_nonneg ds Hds') as Hsum.
    cbn [lineSurvives sumR fold_right]; fold (sumR ds).
    cbn [ConcentrationLine.update fst snd].
    destruct (gtb (ConcentrationLine.distance l - ConcentrationLine.speed l * d) 0)
      eqn:E; cbn [andb].
    + apply gtb_true in E.
      rewrite IH; cbn; [split; intros H; lra | exact Hs | exact E | exact Hds'].
    + apply gtb_false in E; split; [discriminate | intros H; nra].
Qed.

(** X5. For a line with a speed that is not negative and a positive
    distance, and deltas that are not negative: over a sequence of [update]
    calls the distance never rises, [speed], [length] and the target are
    left alone, and every call has returned true exactly when the distance
    after the last call is still positive. *)
Theorem line_kept_iff_approaching (ds : list R) (l : ConcentrationLine.t) :
  0 <= ConcentrationLine.speed l ->
  0 < ConcentrationLine.distance l ->
  Forall (fun d => 0 <= d) ds ->
  ConcentrationLine.distance (lineAfter ds l) <= ConcentrationLine.distance l /\
  ConcentrationLine.speed (lineAfter ds l) = ConcentrationLine.speed l /\
  ConcentrationLine.length (lineAfter ds l) = ConcentrationLine.length l /\
  ConcentrationLine.targetX (lineAfter ds l) = ConcentrationLine.targetX l /\
  ConcentrationLine.targetY (lineAfter ds l) = ConcentrationLine.targetY l /\
  (lineSurvives ds l = true <->
   0 < ConcentrationLine.distance (lineAfter ds l)).
Proof.
  intros Hs Hd Hds.
  destruct (lineAfter_fields ds l) as (H1 & H2 & H3 & _ & H5 & H6).
  pose proof (sumR_nonneg ds Hds) as Hsum.
  pose proof (lineSurvives_iff ds l Hs Hd Hds) as Hiff.
  repeat split; try assumption.
  - rewrite H1; nra.
  - intros H; apply Hiff in H; rewrite H1; lra.
  - intros H; apply Hiff; rewrite H1 in H; lra.
Qed.

(** [line0], at distance 400 with speed 4, over frames of 50 and 40 ticks. *)
Lemma line_kept_iff_approaching_witness :
  ConcentrationLine.distance (lineAfter [50; 40] line0)
  <= ConcentrationLine.distance line0 /\
  lineSurvives [50; 40] line0 = true.
Proof.
  assert (Hs : 0 <= ConcentrationLine.speed line0) by (cbn; unfold zeros; lra).
  assert (Hd : 0 < ConcentrationLine.distance line0)
    by (cbn; unfold zeros; lra).
  assert (Hds : Forall (fun d => 0 <= d) [50; 40]).
  { repeat (apply Forall_cons; [lra |]); apply Forall_nil. }
  destruct (line_kept_iff_approaching [50; 40] line0 Hs Hd Hds)
    as (H1 & _ & _ & _ & _ & H6).
  split; [exact H1 |].
  apply H6; cbn; unfold zeros; lra.
Defined.

(** ** The flight of an energy particle *)





(** ** Ambient particles *)

Lemma addAmbientParticle_fields (scr : Screen) (f : Fortune) (rnd : nat -> R)
    (n : nat) :
  let p := fst (addAmbientParticle scr f rnd n) in
  let angle := rnd n * PI * 2 in
  let dist := 150 + rnd (S n) * 50 in
  Particle.x p = getCenterX scr + cos angle * dist /\
  Particle.y p = getCenterY scr + sin angle * dist /\
  Particle.vx p = (rnd (6 + n)%nat - 0.5) * 2 /\
  Particle.vy p = - rnd (7 + n)%nat * 2 - 1 /\
  Particle.life p = 1 /\
  Particle.maxLife p = rnd (4 + n)%nat * 2 + 1 /\
  Particle.color p = Some (fcolor f) /\
  Particle.gravity p = - 0.02 /\ Particle.friction p = 0.98.
Proof. cbn; repeat split. Qed.

Lemma rising_stays_rising (ds : list R) (p : Particle.t) :
  Particle.vy p < 0 ->
  Particle.gravity p <= 0 ->
  0 < Particle.friction p ->
  Forall (fun d => 0 <= d) ds ->
  Particle.vy (particleAfter ds p) < 0 /\
  Particle.y (particleAfter ds p) <= Particle.y p.
Proof.
  revert p; induction ds as [| d ds IH]; intros p Hv Hg Hf Hds;
    cbn [particleAfter].
  - split; [exact Hv | lra].
  - inversion_clear Hds as [| ? ? Hd Hds'].
    set (p1 := fst (Particle.update d p)).
    assert (Hgd : Particle.gravity p * d <= 0) by nra.
    assert (Hv1 : Particle.vy p1 < 0).
    { cbn; assert (Particle.vy p + Particle.gravity p * d < 0) by lra; nra. }
    assert (Hy1 : Particle.y p1 <= Particle.y p) by (cbn in Hv1 |- *; nra).
    destruct (IH p1 Hv1 Hg Hf Hds') as [H1 H2].
    split; [exact H1 | lra].
Qed.

(** X8. The ambient particle of the result phase (values of [Math.random]
    in [0,1)) is spawned in the direction of the angle drawn, at a distance
    from 150 to 200 from the centre, in the colour of the fortune, with a
    horizontal velocity from -1 to 1 and a vertical one from -3 to -1; its
    gravity is negative.  Under updates with deltas that are not negative
    its vertical velocity never turns positive and it never comes back
    below the height it was spawned at. *)
Theorem ambient_particle_rises (scr : Screen) (f : Fortune) (rnd : nat -> R)
    (n : nat) (ds : list R) :
  valid_rnd rnd ->
  Forall (fun d => 0 <= d) ds ->
  let p := fst (addAmbientParticle scr f rnd n) in
  let angle := rnd n * PI * 2 in
  let dist := 150 + rnd (S n) * 50 in
  Particle.x p = getCenterX scr + cos angle * dist /\
  Particle.y p = getCenterY scr + sin angle * dist /\
  150 <= dist <= 200 /\
  Particle.color p = Some (fcolor f) /\
  -1 <= Particle.vx p <= 1 /\
  -3 <= Particle.vy p <= -1 /\
  Particle.gravity p < 0 /\
  Particle.vy (particleAfter ds p) <= 0 /\
  Particle.y (particleAfter ds p) <= Particle.y p.
Proof.
  intros Hv Hds p angle dist.
  destruct (addAmbientParticle_fields scr f rnd n)
    as (Hx & Hy & Hvx & Hvy & _ & _ & Hc & Hg & Hf).
  fold p angle dist in Hx, Hy, Hvx, Hvy, Hc, Hg, Hf.
  pose proof (Hv (S n)) as H1; pose proof (Hv (6 + n)%nat) as H6.
  pose proof (Hv (7 + n)%nat) as H7.
  destruct (rising_stays_rising ds p) as [R1 R2];
    [rewrite Hvy; lra | rewrite Hg; lra | rewrite Hf; lra | exact Hds |].
  unfold dist; rewrite Hvx, Hvy, Hg; repeat split; try assumption; lra.
Qed.

Lemma ambient_particle_rises_witness :
  let p := fst (addAmbientParticle screen0 (mkFortune "" 0 "") zeros O) in
  -3 <= Particle.vy p <= -1 /\
  Particle.vy (particleAfter [1; 2] p) <= 0 /\
  Particle.y (particleAfter [1; 2] p) <= Particle.y p.
Proof.
  intros p.
  assert (Hds : Forall (fun d => 0 <= d) [1; 2]).
  { repeat (apply Forall_cons; [lra |]); apply Forall_nil. }
  destruct (ambient_particle_rises screen0 (mkFortune "" 0 "") zeros O [1; 2]
              valid_zeros Hds) as (_ & _ & _ & _ & _ & H0 & _ & H1 & H2).
  split; [exact H0 |]; split; [exact H1 | exact H2].
Defined.

(** ** One frame, collection by collection *)

Lemma filter_update_length {A : Type} (f : A -> A * bool) (l : list A) :
  (List.length (filter_update f l) <= List.length l)%nat.
Proof.
  induction l as [| a l IH]; cbn; [lia |].
  destruct (f a) as [a' keep]; destruct keep; cbn; lia.
Qed.

Lemma filter_update_Forall {A : Type} (f : A -> A * bool) (P : A -> Prop)
    (l : list A) :
  (forall a a', f a = (a', true) -> P a') -> Forall P (filter_update f l).
Proof.
  intros H; apply Forall_forall; intros q Hq.
  apply filter_update_In in Hq as (a & _ & Ha); exact (H a q Ha).
Qed.

Lemma explode_Forall (Q : Particle.t -> Prop) (k : nat) (cx cy : R)
    (rnd : nat -> R) :
  (forall c n, Q (fst (Particle.new cx cy c rnd n))) ->
  forall (acc : list Particle.t) (n : nat),
  exists burst,
    fst (explode k cx cy acc rnd n) = acc ++ burst /\
    List.length burst = k /\ Forall Q burst.
Proof.
  intros HQ; induction k as [| k IH]; intros acc n.
  - exists []; cbn; rewrite app_nil_r; auto.
  - cbn [explode]; unfold bind at 1; cbn [random].
    set (c := index colors (floor (rnd n * INR (List.length colors)))).
    unfold bind at 1.
    pose proof (HQ c (S n)) as Hp.
    destruct (Particle.new cx cy c rnd (S n)) as [p m]; cbn [fst] in Hp.
    destruct (IH (acc ++ [p]) m) as (burst & Hb & Hl & HF).
    exists (p :: burst); rewrite Hb, <- app_assoc; repeat split.
    + cbn; rewrite Hl; reflexivity.
    + constructor; assumption.
Qed.

Lemma bind_run {A B : Type} (m : Rand A) (k : A -> Rand B) (rnd : nat -> R)
    (n : nat) :
  bind m k rnd n = k (fst (m rnd n)) rnd (snd (m rnd n)).
Proof. unfold bind; destruct (m rnd n); reflexivity. Qed.

Lemma tap_shape (rnd : nat -> R) (s : GachaState) :
  let s' := step (Tap rnd) s in
  energyParticles s' = energyParticles s /\
  concentrationLines s' = concentrationLines s /\
  idleTime s' = idleTime s /\
  particles s' = match phase s with result => [] | _ => particles s end /\
  phase s' = match phase s with idle => charging | result => idle | p => p end.
Proof.
  cbn zeta; cbn [step]; unfold run, handleTap.
  destruct (phase s) eqn:E; rand_run; cbn; rewrite ?E; repeat split.
Qed.

Lemma tick_idle_shape delta scr rnd (s : GachaState) :
  phase s = idle ->
  step (Tick delta scr rnd) s
  = mkState idle (particles s) (concentrationLines s) (energyParticles s)
      (idleTime s + delta * 0.02) (chargeProgress s) (selectedFortune s)
      (setInstructionPos (getCenterX scr, getCenterY scr + 200)
         (setInstructionAlpha
            (0.5 + sin ((idleTime s + delta * 0.02) * 2) * 0.3) (scene s))).
Proof.
  intros Hs; cbn [step]; unfold run, tick; rewrite Hs; reflexivity.
Qed.

Lemma tick_charging_shape delta scr rnd (s : GachaState) :
  phase s = charging ->
  let s' := step (Tick delta scr rnd) s in
  let progress := chargeProgress s + delta / 90 in
  idleTime s' = idleTime s /\
  exists spawnedE spawnedL,
    (spawnedE = [] \/ spawnedE = [fst (addEnergyParticle scr rnd 1%nat)]) /\
    (spawnedL = [] \/
     exists n, spawnedL = [fst (addConcentrationLine scr rnd n)]) /\
    if geb progress 1 then
      phase s' = releasing /\ chargeProgress s' = 0 /\
      energyParticles s' = [] /\ concentrationLines s' = [] /\
      exists n,
        particles s'
        = fst (explode 150 (getCenterX scr) (getCenterY scr) (particles s) rnd n)
    else
      phase s' = charging /\ chargeProgress s' = progress /\
      particles s' = particles s /\
      energyParticles s'
      = filter_update (energyStep delta (getCenterX scr) (getCenterY scr))
          (energyParticles s ++ spawnedE) /\
      concentrationLines s'
      = filter_update (ConcentrationLine.update delta)
          (concentrationLines s ++ spawnedL).
Proof.
  intros Hs; cbn [step]; unfold run, tick; rewrite Hs; cbn zeta.
  unfold tickCharging.
  repeat (rewrite bind_run; cbn beta); cbn [random fst snd].
  match goal with
  | |- context [(if ltb (rnd O) 0.3 then ?a else ?b) rnd 1%nat] =>
      set (E := (if ltb (rnd O) 0.3 then a else b) rnd 1%nat)
  end.
  match goal with
  | |- context [(if ltb (rnd ?k) 0.2 then ?a else ?b) rnd ?j] =>
      set (L := (if ltb (rnd k) 0.2 then a else b) rnd j)
  end.
  assert (HE : exists spawnedE,
             (spawnedE = [] \/
              spawnedE = [fst (addEnergyParticle scr rnd 1%nat)]) /\
             fst E = energyParticles s ++ spawnedE).
  { subst E; destruct (ltb (rnd O) 0.3).
    - rewrite bind_run; cbn [ret fst]; eexists; split; [right |]; reflexivity.
    - exists []; cbn [ret fst]; rewrite app_nil_r; auto. }
  assert (HL : exists spawnedL,
             (spawnedL = [] \/
              exists n, spawnedL = [fst (addConcentrationLine scr rnd n)]) /\
             fst L = concentrationLines s ++ spawnedL).
  { subst L; destruct (ltb (rnd (snd E)) 0.2).
    - rewrite bind_run; cbn [ret fst]; eexists; split; [right; eexists |];
        reflexivity.
    - exists []; cbn [ret fst]; rewrite app_nil_r; auto. }
  destruct HE as (spawnedE & HspE & HE); destruct HL as (spawnedL & HspL & HL).
  clearbody E L.
  destruct (geb (chargeProgress s + delta / 90) 1).
  - rewrite bind_run; cbn [ret fst idleTime]; split; [reflexivity |].
    exists spawnedE, spawnedL.
    split; [exact HspE | split; [exact HspL |]].
    cbn [phase chargeProgress energyParticles concentrationLines particles].
    do 4 (split; [reflexivity |]).
    eexists; reflexivity.
  - cbn [ret fst idleTime]; split; [reflexivity |].
    exists spawnedE, spawnedL.
    split; [exact HspE | split; [exact HspL |]].
    cbn [phase chargeProgress energyParticles concentrationLines particles].
    rewrite HE, HL.
    do 4 (split; [reflexivity |]); reflexivity.
Qed.

Lemma tick_releasing_shape delta scr rnd (s : GachaState) :
  phase s = releasing ->
  let s' := step (Tick delta scr rnd) s in
  particles s' = filter_update (Particle.update delta) (particles s) /\
  energyParticles s' = energyParticles s /\
  concentrationLines s' = concentrationLines s /\
  idleTime s' = idleTime s /\
  chargeProgress s' = chargeProgress s + delta / 60 /\
  (phase s' = releasing \/ phase s' = result).
Proof.
  intros Hs; cbn [step]; unfold run, tick; rewrite Hs.
  unfold tickReleasing; rand_run; cbn; repeat split; auto.
Qed.

Lemma tick_result_shape delta scr rnd (s : GachaState) :
  phase s = result ->
  let s' := step (Tick delta scr rnd) s in
  phase s' = result /\
  energyParticles s' = energyParticles s /\
  concentrationLines s' = concentrationLines s /\
  chargeProgress s' = chargeProgress s /\
  idleTime s' = idleTime s + delta * 0.02 /\
  exists spawned,
    (spawned = [] \/
     exists f, selectedFortune s = Some f /\
               spawned = [fst (addAmbientParticle scr f rnd 1%nat)]) /\
    particles s'
    = filter_update (Particle.update delta) (particles s ++ spawned).
Proof.
  intros Hs; cbn [step]; unfold run, tick; rewrite Hs; cbn zeta.
  unfold tickResult.
  repeat (rewrite bind_run; cbn beta); cbn [random fst snd ret].
  cbn [phase energyParticles concentrationLines chargeProgress idleTime
       particles].
  do 5 (split; [reflexivity |]).
  destruct (ltb (rnd O) 0.1); [destruct (selectedFortune s) as [f |] |].
  - rewrite bind_run; cbn [ret fst].
    exists [fst (addAmbientParticle scr f rnd 1%nat)].
    split; [right; exists f; auto | reflexivity].
  - exists []; cbn [ret fst]; rewrite app_nil_r; auto.
  - exists []; cbn [ret fst]; rewrite app_nil_r; auto.
Qed.

(** ** What the collections hold *)

Lemma energyStep_alive (delta cx cy : R) (a a' : Particle.t) :
  energyStep delta cx cy a = (a', true) -> 0 < Particle.life a'.
Proof.
  unfold energyStep.
  pose proof (update_alive delta a) as Ha.
  destruct (Particle.update delta a) as [p alive]; cbn [fst snd] in Ha.
  destruct (ltb _ 50); intros H; injection H as <- E; [discriminate |].
  apply Ha, E.
Qed.

Lemma particle_update_alive (delta : R) (a a' : Particle.t) :
  Particle.update delta a = (a', true) -> 0 < Particle.life a'.
Proof.
  intros H; pose proof (update_alive delta a) as Ha.
  rewrite H in Ha; apply Ha; reflexivity.
Qed.

Lemma line_update_alive (delta : R) (a a' : ConcentrationLine.t) :
  ConcentrationLine.update delta a = (a', true) ->
  0 < ConcentrationLine.distance a'.
Proof.
  unfold ConcentrationLine.update; intros H; injection H as <- E.
  apply gtb_true in E; exact E.
Qed.

Lemma step_collections_ok (ev : Event) (s : GachaState) :
  collections_ok s -> collections_ok (step ev s).
Proof.
  intros (H1 & H2 & HP & HE & HL).
  destruct ev as [rnd | delta scr rnd | scr].
  - destruct (tap_shape rnd s) as (TE & TL & _ & TP & TPh).
    unfold collections_ok; rewrite TE, TL, TP, TPh.
    destruct (phase s) eqn:E; repeat split; auto; try congruence;
      try (intros; apply H2; congruence).
  - destruct (phase s) eqn:E.
    + rewrite (tick_idle_shape delta scr rnd s E).
      unfold collections_ok; cbn; rewrite <- E at 2; auto.
    + destruct (tick_charging_shape delta scr rnd s E)
        as (_ & spE & spL & _ & _ & H).
      destruct (geb (chargeProgress s + delta / 90) 1).
      * destruct H as (Ph & _ & HE' & HL' & n & HP').
        unfold collections_ok; rewrite Ph, HE', HL', HP'.
        destruct (explode_Forall (fun p => 0 < Particle.life p) 150
                    (getCenterX scr) (getCenterY scr) rnd) with
          (acc := particles s) (n := n) as (burst & Hb & _ & HF).
        { intros c m; cbn; lra. }
        rewrite Hb; repeat split; auto; try (intros [? | ?]; discriminate).
        apply Forall_app; auto.
      * destruct H as (Ph & _ & HP' & HE' & HL').
        unfold collections_ok; rewrite Ph, HE', HL', HP'.
        repeat split; auto; try congruence.
        -- apply filter_update_Forall, energyStep_alive.
        -- apply filter_update_Forall, line_update_alive.
    + destruct (tick_releasing_shape delta scr rnd s E)
        as (HP' & HE' & HL' & _ & _ & Ph).
      destruct (H2 ltac:(congruence)) as [E0 L0].
      unfold collections_ok; rewrite HP', HE', HL', E0, L0.
      repeat split; auto; try (intros [? | ?]; destruct Ph; congruence).
      apply filter_update_Forall, particle_update_alive.
    + destruct (tick_result_shape delta scr rnd s E)
        as (Ph & HE' & HL' & _ & _ & sp & _ & HP').
      destruct (H2 ltac:(congruence)) as [E0 L0].
      unfold collections_ok; rewrite HP', HE', HL', E0, L0, Ph.
      repeat split; auto; try (intros [? | ?]; discriminate).
      apply filter_update_Forall, particle_update_alive.
  - exact (conj H1 (conj H2 (conj HP (conj HE HL)))).
Qed.

(** X9. In every state reached from the initial one, whatever the events
    and the values of [Math.random]: [particles] is empty in the phases
    idle and charging, [energyParticles] and [concentrationLines] are empty
    outside charging, every stored particle has a positive [life] and
    every stored line a positive [distance]. *)
Theorem reachable_collections_ok (evs : list Event) :
  collections_ok (exec evs initState).
Proof.
  induction evs as [| ev evs IH] using rev_ind.
  - unfold collections_ok; cbn; repeat split; auto; constructor.
  - rewrite exec_snoc; apply step_collections_ok, IH.
Qed.

(** X10. What one frame can add.  In idle the three collections are left
    as they are.  In charging at most one energy particle and one line are
    added; a frame that leaves the phase charging leaves [particles] as it
    is, and the frame that releases makes [particles] grow by exactly 150
    and empties the other two collections.  In releasing nothing is added
    to [particles], in result at most one particle, and in both the other
    two collections are left as they are. *)
Theorem frame_growth_bounded (delta : R) (scr : Screen) (rnd : nat -> R)
    (s : GachaState) :
  let s' := step (Tick delta scr rnd) s in
  let size (l : list Particle.t) := List.length l in
  match phase s with
  | idle =>
      particles s' = particles s /\
      energyParticles s' = energyParticles s /\
      concentrationLines s' = concentrationLines s
  | charging =>
      (size (energyParticles s') <= size (energyParticles s) + 1)%nat /\
      (List.length (concentrationLines s')
       <= List.length (concentrationLines s) + 1)%nat /\
      (phase s' = charging /\ particles s' = particles s
       \/
       phase s' = releasing /\
       size (particles s') = (size (particles s) + 150)%nat /\
       energyParticles s' = [] /\ concentrationLines s' = [])
  | releasing =>
      (size (particles s') <= size (particles s))%nat /\
      energyParticles s' = energyParticles s /\
      concentrationLines s' = concentrationLines s
  | result =>
      (size (particles s') <= size (particles s) + 1)%nat /\
      energyParticles s' = energyParticles s /\
      concentrationLines s' = concentrationLines s
  end.
Proof.
  intros s' size; subst s' size; cbn beta.
  destruct (phase s) eqn:E.
  - rewrite (tick_idle_shape delta scr rnd s E); cbn; auto.
  - destruct (tick_charging_shape delta scr rnd s E)
      as (_ & spE & spL & HspE & HspL & H).
    destruct (geb (chargeProgress s + delta / 90) 1).
    + destruct H as (Ph & _ & HE' & HL' & n & HP').
      rewrite Ph, HE', HL', HP'.
      destruct (explode_Forall (fun _ => True) 150 (getCenterX scr)
                  (getCenterY scr) rnd (fun _ _ => I) (particles s) n)
        as (burst & Hb & Hlen & _).
      rewrite Hb, length_app, Hlen; cbn [List.length].
      split; [lia |]; split; [lia |]; right; auto.
    + destruct H as (Ph & _ & HP' & HE' & HL').
      rewrite Ph, HE', HL', HP'; repeat split; auto.
      * eapply Nat.le_trans; [apply filter_update_length |].
        rewrite length_app; destruct HspE as [-> | ->]; cbn; lia.
      * eapply Nat.le_trans; [apply filter_update_length |].
        rewrite length_app; destruct HspL as [-> | [m ->]]; cbn; lia.
  - destruct (tick_releasing_shape delta scr rnd s E) as (HP' & HE' & HL' & _).
    rewrite HP', HE', HL'; repeat split; auto; apply filter_update_length.
  - destruct (tick_result_shape delta scr rnd s E)
      as (_ & HE' & HL' & _ & _ & sp & Hsp & HP').
    rewrite HP', HE', HL'; repeat split; auto.
    eapply Nat.le_trans; [apply filter_update_length |].
    rewrite length_app; destruct Hsp as [-> | (f & _ & ->)]; cbn; lia.
Qed.

(** ** The display properties, step by step *)

Lemma tap_scene (rnd : nat -> R) (s : GachaState) :
  let s' := step (Tap rnd) s in
  instructionVisible (scene s')
  = match phase s with
    | idle => false
    | result => true
    | _ => instructionVisible (scene s)
    end /\
  cardVisible (scene s')
  = match phase s with result => false | _ => cardVisible (scene s) end /\
  instructionAlpha (scene s') = instructionAlpha (scene s) /\
  gachaAlpha (scene s') = gachaAlpha (scene s) /\
  glowAlpha (scene s') = glowAlpha (scene s) /\
  layerPos (scene s') = layerPos (scene s) /\
  chargeProgress s'
  = match phase s with idle => 0 | _ => chargeProgress s end.
Proof.
  cbn zeta; cbn [step]; unfold run, handleTap.
  destruct (phase s) eqn:E; rand_run; cbn; rewrite ?E; repeat split.
Qed.

Lemma tick_scene delta scr rnd (s : GachaState) :
  let s' := step (Tick delta scr rnd) s in
  instructionVisible (scene s') = instructionVisible (scene s) /\
  cardVisible (scene s')
  = match phase s, phase s' with
    | releasing, result => true
    | _, _ => cardVisible (scene s)
    end /\
  instructionAlpha (scene s')
  = match phase s with
    | idle => 0.5 + sin ((idleTime s + delta * 0.02) * 2) * 0.3
    | _ => instructionAlpha (scene s)
    end /\
  gachaAlpha (scene s')
  = match phase s with
    | releasing => 1 - (chargeProgress s + delta / 60)
    | _ => gachaAlpha (scene s)
    end /\
  glowAlpha (scene s')
  = match phase s with
    | releasing => 1 - (chargeProgress s + delta / 60)
    | _ => glowAlpha (scene s)
    end /\
  layerPos (scene s')
  = match phase s with charging => (0, 0) | _ => layerPos (scene s) end.
Proof.
  cbn zeta; cbn [step]; unfold run, tick; destruct (phase s) eqn:E.
  - unfold tickIdle, ret; cbn; repeat split.
  - unfold tickCharging.
    repeat (rewrite bind_run; cbn beta).
    destruct (geb (chargeProgress s + delta / 90) 1);
      [rewrite bind_run |]; cbn [ret fst phase scene]; cbn;
      repeat split; f_equal; ring.
  - unfold tickReleasing.
    destruct (geb (chargeProgress s + delta / 60) 1);
      [destruct (selectedFortune s) |]; cbn; repeat split.
  - unfold tickResult.
    repeat (rewrite bind_run; cbn beta); cbn [ret fst phase scene]; cbn.
    repeat split.
Qed.

Lemma tick_phase_cases delta scr rnd (s : GachaState) :
  let s' := step (Tick delta scr rnd) s in
  match phase s with
  | idle => phase s' = idle
  | charging =>
      (phase s' = charging /\ chargeProgress s + delta / 90 < 1) \/
      (phase s' = releasing /\ 1 <= chargeProgress s + delta / 90)
  | releasing =>
      (phase s' = releasing /\
       (chargeProgress s + delta / 60 < 1 \/ selectedFortune s = None)) \/
      (phase s' = result /\ 1 <= chargeProgress s + delta / 60 /\
       selectedFortune s <> None)
  | result => phase s' = result
  end.
Proof.
  cbn zeta; cbn [step]; unfold run; destruct (phase s) eqn:E.
  - unfold tick; rewrite E; reflexivity.
  - unfold tick; rewrite E, tickCharging_phase.
    destruct (geb _ 1) eqn:G; [right | left]; split; auto;
      [apply geb_true | apply geb_false]; exact G.
  - unfold tick; rewrite E, tickReleasing_phase.
    destruct (geb _ 1) eqn:G; [destruct (selectedFortune s) eqn:F |].
    + right; repeat split; [apply geb_true; exact G | discriminate].
    + left; auto.
    + left; split; [reflexivity | left; apply geb_false; exact G].
  - apply (tick_result_shape delta scr rnd s E).
Qed.

Lemma resize_scene (scr : Screen) (s : GachaState) :
  let s' := step (Resize scr) s in
  phase s' = phase s /\
  instructionVisible (scene s') = instructionVisible (scene s) /\
  cardVisible (scene s') = cardVisible (scene s) /\
  instructionAlpha (scene s') = instructionAlpha (scene s) /\
  gachaAlpha (scene s') = gachaAlpha (scene s) /\
  glowAlpha (scene s') = glowAlpha (scene s) /\
  layerPos (scene s') = layerPos (scene s) /\
  chargeProgress s' = chargeProgress s.
Proof.
  cbn zeta; cbn [step]; unfold handleResize.
  destruct (phase s), (selectedFortune s); cbn; repeat split.
Qed.

Lemma step_visibility (ev : Event) (s : GachaState) :
  (instructionVisible (scene s) = true <-> phase s = idle) /\
  (cardVisible (scene s) = true <-> phase s = result) ->
  (instructionVisible (scene (step ev s)) = true <-> phase (step ev s) = idle) /\
  (cardVisible (scene (step ev s)) = true <-> phase (step ev s) = result).
Proof.
  intros [HI HC]; destruct ev as [rnd | delta scr rnd | scr].
  - destruct (tap_scene rnd s) as (TI & TC & _).
    destruct (tap_shape rnd s) as (_ & _ & _ & _ & TP).
    rewrite TI, TC, TP.
    destruct (phase s) eqn:E; intuition (discriminate || congruence).
  - destruct (tick_scene delta scr rnd s) as (TI & TC & _).
    pose proof (tick_phase_cases delta scr rnd s) as TP; cbn zeta in TP.
    rewrite TI, TC.
    destruct (phase s) eqn:E.
    + rewrite TP; intuition (discriminate || congruence).
    + destruct TP as [[-> _] | [-> _]]; intuition (discriminate || congruence).
    + destruct TP as [[-> _] | [-> _]]; intuition (discriminate || congruence).
    + rewrite TP; intuition (discriminate || congruence).
  - destruct (resize_scene scr s) as (RP & RI & RC & _).
    rewrite RP, RI, RC; exact (conj HI HC).
Qed.

(** X11. In every state reached from the initial one the prompt is visible
    exactly when the phase is idle and the card is visible exactly when
    the phase is result. *)
Theorem prompt_and_card_visibility (evs : list Event) :
  let s := exec evs initState in
  (instructionVisible (scene s) = true <-> phase s = idle) /\
  (cardVisible (scene s) = true <-> phase s = result).
Proof.
  induction evs as [| ev evs IH] using rev_ind; cbn zeta.
  - cbn; split; split; auto; discriminate.
  - rewrite exec_snoc; apply step_visibility, IH.
Qed.

Lemma step_orb_hidden (ev : Event) (s : GachaState) :
  phase s = releasing \/
  (gachaAlpha (scene s) <= 0 /\ glowAlpha (scene s) <= 0) ->
  phase (step ev s) = releasing \/
  (gachaAlpha (scene (step ev s)) <= 0 /\ glowAlpha (scene (step ev s)) <= 0).
Proof.
  intros H; destruct ev as [rnd | delta scr rnd | scr].
  - destruct (tap_scene rnd s) as (_ & _ & _ & TG & TW & _).
    destruct (tap_shape rnd s) as (_ & _ & _ & _ & TP).
    rewrite TG, TW, TP.
    destruct H as [H | H]; [left; rewrite H; reflexivity | right; exact H].
  - destruct (tick_scene delta scr rnd s) as (_ & _ & _ & TG & TW & _).
    pose proof (tick_phase_cases delta scr rnd s) as TP; cbn zeta in TP.
    rewrite TG, TW.
    destruct (phase s) eqn:E.
    + destruct H as [H | H]; [discriminate | right; exact H].
    + destruct H as [H | H]; [discriminate | right; exact H].
    + destruct TP as [[-> _] | (_ & Hp & _)]; [left; reflexivity |].
      right; split; lra.
    + destruct H as [H | H]; [discriminate | right; exact H].
  - destruct (resize_scene scr s) as (RP & _ & _ & _ & RG & RW & _).
    rewrite RP, RG, RW; exact H.
Qed.

(** X12. The alpha of the machine and of its glow is written by the frames
    of the releasing phase only, to [1 - progress], and nothing sets it
    back: from a releasing state on, every state that is not itself
    releasing (the result, the idle that follows it, the charging of the
    next draw) has both alphas at 0 or below. *)
Theorem orb_hidden_after_release (evs : list Event) (s : GachaState) :
  phase s = releasing ->
  phase (exec evs s) = releasing \/
  (gachaAlpha (scene (exec evs s)) <= 0 /\
   glowAlpha (scene (exec evs s)) <= 0).
Proof.
  intros Hs; induction evs as [| ev evs IH] using rev_ind.
  - left; exact Hs.
  - rewrite exec_snoc; apply step_orb_hidden, IH.
Qed.

(** After [oneDraw] and the tap back to idle, and after the tap that starts
    the next draw. *)
Lemma orb_hidden_after_release_witness :
  let s2 := exec [Tap zeros; Tick 90 screen0 zeros] initState in
  let back := [Tick 60 screen0 zeros; Tap zeros; Tick 1 screen0 zeros;
               Tap zeros] in
  phase s2 = releasing /\
  (phase (exec back s2) = releasing \/
   gachaAlpha (scene (exec back s2)) <= 0 /\
   glowAlpha (scene (exec back s2)) <= 0).
Proof.
  intros s2 back.
  destruct oneDraw_states as (_ & P2 & _).
  split; [exact P2 |].
  exact (orb_hidden_after_release back s2 P2).
Defined.

Lemma step_layer_origin (ev : Event) (s : GachaState) :
  layerPos (scene s) = (0, 0) -> layerPos (scene (step ev s)) = (0, 0).
Proof.
  intros H; destruct ev as [rnd | delta scr rnd | scr].
  - destruct (tap_scene rnd s) as (_ & _ & _ & _ & _ & TL & _).
    rewrite TL; exact H.
  - destruct (tick_scene delta scr rnd s) as (_ & _ & _ & _ & _ & TL).
    rewrite TL; destruct (phase s); auto.
  - destruct (resize_scene scr s) as (_ & _ & _ & _ & _ & _ & RL & _).
    rewrite RL; exact H.
Qed.

Lemma step_prompt_alpha (ev : Event) (s : GachaState) :
  0.2 <= instructionAlpha (scene s) <= 1 ->
  0.2 <= instructionAlpha (scene (step ev s)) <= 1.
Proof.
  intros H; destruct ev as [rnd | delta scr rnd | scr].
  - destruct (tap_scene rnd s) as (_ & _ & TA & _).
    rewrite TA; exact H.
  - destruct (tick_scene delta scr rnd s) as (_ & _ & TA & _).
    rewrite TA; destruct (phase s); auto.
    pose proof (SIN_bound ((idleTime s + delta * 0.02) * 2)); lra.
  - destruct (resize_scene scr s) as (_ & _ & _ & RA & _).
    rewrite RA; exact H.
Qed.

(** X13. In every state reached from the initial one the gacha layer sits
    at (0,0), so its scale is always applied about the origin of the
    stage, and the alpha of the prompt lies between 0.2 and 1. *)
Theorem layer_at_origin_prompt_alpha (evs : list Event) :
  let s := exec evs initState in
  layerPos (scene s) = (0, 0) /\
  0.2 <= instructionAlpha (scene s) <= 1.
Proof.
  induction evs as [| ev evs IH] using rev_ind; cbn zeta.
  - cbn; split; [reflexivity | lra].
  - rewrite exec_snoc; destruct IH as [IH1 IH2]; split.
    + apply step_layer_origin, IH1.
    + apply step_prompt_alpha, IH2.
Qed.

(** ** The progress counter *)

Lemma reachable_selected (evs : list Event) :
  Forall valid_event evs ->
  phase (exec evs initState) <> idle ->
  selectedFortune (exec evs initState) <> None.
Proof.
  intros Hv Hp; destruct (existsb isTap evs) eqn:E.
  - apply after_first_tap; assumption.
  - destruct (before_first_tap evs E) as [_ Hi]; contradiction.
Qed.

(** X14. With values of [Math.random] in [0,1) and no negative delta, in
    every state reached from the initial one [chargeProgress] lies in
    [0,1) while the phase is charging or releasing, is 1 or more in result,
    and in idle is either the 0 it started with or the value of 1 or more
    the last draw left behind. *)
Theorem progress_ranges (evs : list Event) :
  Forall valid_event evs ->
  Forall nonneg_event evs ->
  let s := exec evs initState in
  match phase s with
  | idle => chargeProgress s = 0 \/ 1 <= chargeProgress s
  | charging | releasing => 0 <= chargeProgress s < 1
  | result => 1 <= chargeProgress s
  end.
Proof.
  induction evs as [| ev evs IH] using rev_ind; intros Hv Hn; cbn zeta.
  - cbn; left; reflexivity.
  - apply Forall_app in Hv as [Hv Hev]; apply Forall_app in Hn as [Hn Hen].
    inversion_clear Hev as [| ? ? Hev' _]; inversion_clear Hen as [| ? ? Hen' _].
    specialize (IH Hv Hn); cbn zeta in IH.
    pose proof (reachable_selected evs Hv) as Hsel.
    rewrite exec_snoc; set (s := exec evs initState) in *.
    destruct ev as [rnd | delta scr rnd | scr].
    + destruct (tap_scene rnd s) as (_ & _ & _ & _ & _ & _ & TC).
      destruct (tap_shape rnd s) as (_ & _ & _ & _ & TP).
      rewrite TC, TP; destruct (phase s); auto; lra.
    + cbn in Hen'.
      pose proof (tick_phase_cases delta scr rnd s) as TP; cbn zeta in TP.
      destruct (phase s) eqn:E.
      * rewrite TP, (tick_idle_shape delta scr rnd s E); exact IH.
      * destruct (tick_charging_fields delta scr rnd s E) as [Hlt Hge].
        destruct TP as [[Ph Hp] | [Ph Hp]]; rewrite Ph.
        -- destruct (Hlt Hp) as (_ & -> & _).
           assert (0 <= delta / 90) by (apply Rmult_le_pos; lra); lra.
        -- destruct (Hge Hp) as (_ & ->); lra.
      * destruct (tick_releasing_shape delta scr rnd s E)
          as (_ & _ & _ & _ & -> & _).
        assert (0 <= delta / 60) by (apply Rmult_le_pos; lra).
        destruct TP as [[Ph [Hp | Hp]] | [Ph [Hp _]]]; rewrite Ph.
        -- lra.
        -- exfalso; apply Hsel; [congruence | exact Hp].
        -- lra.
      * destruct (tick_result_shape delta scr rnd s E)
          as (Ph & _ & _ & -> & _).
        rewrite Ph; exact IH.
    + destruct (resize_scene scr s) as (RP & _ & _ & _ & _ & _ & _ & RC).
      rewrite RP, RC; exact IH.
Qed.

Lemma valid_oneDraw : Forall valid_event oneDraw.
Proof.
  unfold oneDraw; repeat (apply Forall_cons; [exact valid_zeros |]).
  apply Forall_nil.
Qed.

Lemma nonneg_oneDraw : Forall nonneg_event oneDraw.
Proof.
  unfold oneDraw; apply Forall_cons; [exact I |].
  repeat (apply Forall_cons; [cbn; lra |]); apply Forall_nil.
Qed.

(** After [oneDraw] the phase is result. *)
Lemma progress_ranges_witness : 1 <= chargeProgress (exec oneDraw initState).
Proof.
  pose proof (progress_ranges oneDraw valid_oneDraw nonneg_oneDraw) as H.
  cbn zeta in H.
  destruct oneDraw_states as (_ & _ & P3 & _).
  change (phase (exec oneDraw initState) = result) in P3.
  rewrite P3 in H; exact H.
Defined.

(** ** The tweens of a draw *)

Lemma step_tweens (ev : Event) (s : GachaState) :
  tweens (scene (step ev s))
  = tweens (scene s) ++ tweensIssued ev (phase s) (phase (step ev s)).
Proof.
  destruct ev as [rnd | delta scr rnd | scr]; cbn [step].
  - unfold run, handleTap; destruct (phase s) eqn:E; rand_run; cbn;
      rewrite ?app_nil_r, <- ?app_assoc; reflexivity.
  - unfold run, tick; destruct (phase s) eqn:E.
    + unfold tickIdle, ret; cbn; rewrite app_nil_r; reflexivity.
    + unfold tickCharging.
      repeat (rewrite bind_run; cbn beta).
      destruct (geb (chargeProgress s + delta / 90) 1);
        [rewrite bind_run |]; cbn [ret fst phase scene]; cbn;
        rewrite ?app_nil_r, <- ?app_assoc; reflexivity.
    + unfold tickReleasing.
      destruct (geb (chargeProgress s + delta / 60) 1);
        [destruct (selectedFortune s) |]; cbn;
        rewrite ?app_nil_r, <- ?app_assoc; reflexivity.
    + unfold tickResult.
      repeat (rewrite bind_run; cbn beta); cbn [ret fst phase scene]; cbn.
      rewrite app_nil_r; reflexivity.
  - unfold handleResize.
    destruct (phase s), (selectedFortune s); cbn; rewrite app_nil_r;
      reflexivity.
Qed.

Lemma issuedAlong_constant (evs : list Event) (s : GachaState) :
  Forall (fun st => phase st = phase s) (trace evs s) -> issuedAlong evs s = [].
Proof.
  revert s; induction evs as [| ev evs IH]; intros s HF; cbn.
  - reflexivity.
  - cbn [trace] in HF; inversion_clear HF as [| ? ? H1 H2].
    rewrite H1, IH by (rewrite H1; exact H2).
    destruct ev, (phase s); reflexivity.
Qed.

Lemma issuedAlong_app (evs1 evs2 : list Event) (s : GachaState) :
  issuedAlong (evs1 ++ evs2) s
  = issuedAlong evs1 s ++ issuedAlong evs2 (exec evs1 s).
Proof.
  revert s; induction evs1 as [| ev evs1 IH]; intros s; cbn.
  - reflexivity.
  - rewrite IH, app_assoc; reflexivity.
Qed.

Lemma exec_tweens_issued (evs : list Event) (s : GachaState) :
  tweens (scene (exec evs s)) = tweens (scene s) ++ issuedAlong evs s.
Proof.
  revert s; induction evs as [| ev evs IH]; intros s.
  - cbn; rewrite app_nil_r; reflexivity.
  - rewrite exec_cons, IH, step_tweens; cbn [issuedAlong].
    rewrite app_assoc; reflexivity.
Qed.

Lemma exec_tweens_steady (evs : list Event) (s : GachaState) :
  Forall (fun st => phase st = phase s) (trace evs s) ->
  tweens (scene (exec evs s)) = tweens (scene s).
Proof.
  intros HF; rewrite exec_tweens_issued, issuedAlong_constant, app_nil_r; auto.
Qed.

(** X15. Effects are fired by phase changes and by nothing else.  Along
    every run the tweens issued are, step by step, those of
    [tweensIssued]: the darkening and the bloom ramp at the tap that
    leaves idle, the flash and the bloom spike at the frame that releases,
    the two card tweens and the bloom settle at the frame that reveals,
    the lightening and the bloom reset at the tap that leaves result; a
    step that keeps the phase issues none. *)
Theorem tweens_follow_phase_changes (evs : list Event) (s : GachaState) :
  tweens (scene (exec evs s)) = tweens (scene s) ++ issuedAlong evs s /\
  (Forall (fun st => phase st = phase s) (trace evs s) ->
   tweens (scene (exec evs s)) = tweens (scene s)).
Proof.
  split; [apply exec_tweens_issued | apply exec_tweens_steady].
Qed.

(** ** A whole draw *)

Lemma tick_reveal delta scr rnd (s : GachaState) (f : Fortune) :
  phase s = releasing ->
  selectedFortune s = Some f ->
  1 <= chargeProgress s + delta / 60 ->
  let s' := step (Tick delta scr rnd) s in
  phase s' = result /\
  cardVisible (scene s') = true /\
  cardPos (scene s') = (getCenterX scr, getCenterY scr) /\
  cardScale (scene s') = (0, 0) /\
  cardRotation (scene s') = PI /\
  layerScale (scene s') = (1, 1).
Proof.
  intros Hs Hf Hp; cbn [step]; unfold run, tick; rewrite Hs.
  unfold tickReleasing; rewrite Hf.
  apply geb_true in Hp; rewrite Hp; cbn; repeat split.
Qed.

Lemma tick_result_keeps delta scr rnd (s : GachaState) :
  phase s = result ->
  let s' := step (Tick delta scr rnd) s in
  phase s' = result /\
  cardVisible (scene s') = cardVisible (scene s) /\
  layerScale (scene s') = layerScale (scene s).
Proof.
  intros Hs; cbn [step]; unfold run, tick; rewrite Hs.
  unfold tickResult.
  repeat (rewrite bind_run; cbn beta); cbn [ret fst phase scene]; cbn.
  repeat split.
Qed.

Lemma frames_idle (frames : list Frame) (s : GachaState) :
  phase s = idle -> phase (exec (map tickOf frames) s) = idle.
Proof.
  revert s; induction frames as [| f frames IH]; intros s Hs.
  - exact Hs.
  - cbn [map]; rewrite exec_cons; apply IH, tick_idle_phase, Hs.
Qed.

Lemma frames_result (frames : list Frame) (s : GachaState) :
  phase s = result ->
  let s' := exec (map tickOf frames) s in
  phase s' = result /\
  cardVisible (scene s') = cardVisible (scene s) /\
  layerScale (scene s') = layerScale (scene s).
Proof.
  revert s; induction frames as [| f frames IH]; intros s Hs.
  - cbn; auto.
  - cbn [map]; rewrite exec_cons.
    destruct (tick_result_keeps (frameDelta f) (frameScreen f) (frameRnd f)
                s Hs) as (P1 & V1 & L1).
    destruct (IH (step (tickOf f) s) P1) as (P2 & V2 & L2).
    cbn zeta; rewrite V2, L2; auto.
Qed.

Lemma frames_selected (frames : list Frame) (s : GachaState) :
  selectedFortune (exec (map tickOf frames) s) = selectedFortune s.
Proof.
  revert s; induction frames as [| f frames IH]; intros s.
  - reflexivity.
  - cbn [map]; rewrite exec_cons, IH.
    unfold tickOf; cbn [step]; apply tick_selected.
Qed.

(** A run of frames issues the tweens of the phase changes it makes. *)
Lemma frames_tweens (frames : list Frame) (s : GachaState) :
  tweens (scene (exec (map tickOf frames) s))
  = tweens (scene s)
    ++ tweensBetween (phase s) (phase (exec (map tickOf frames) s)).
Proof.
  revert s; induction frames as [| f frames IH]; intros s.
  - cbn; destruct (phase s); cbn; rewrite app_nil_r; reflexivity.
  - cbn [map]; rewrite exec_cons, IH, step_tweens, <- app_assoc; f_equal.
    set (s1 := step (tickOf f) s).
    pose proof (tick_phase_cases (frameDelta f) (frameScreen f) (frameRnd f) s)
      as TP; cbn zeta in TP; fold (tickOf f) in TP; fold s1 in TP.
    unfold tickOf at 1.
    destruct (phase s) eqn:E.
    + rewrite TP, (frames_idle frames s1 TP); reflexivity.
    + destruct TP as [[P1 _] | [P1 _]]; rewrite P1.
      * reflexivity.
      * destruct (frames_past_charging frames s1) as [H | H];
          [left; exact P1 | |]; rewrite H; reflexivity.
    + destruct TP as [[P1 _] | [P1 _]]; rewrite P1.
      * reflexivity.
      * destruct (frames_result frames s1 P1) as [H _]; rewrite H; reflexivity.
    + rewrite TP; reflexivity.
Qed.

(** A run of frames that starts during a draw and ends in the result phase
    has shown the card and reset the layer scale. *)
Lemma frames_revealed (frames : list Frame) (s : GachaState) :
  phase s = charging \/ phase s = releasing ->
  phase (exec (map tickOf frames) s) = result ->
  cardVisible (scene (exec (map tickOf frames) s)) = true /\
  layerScale (scene (exec (map tickOf frames) s)) = (1, 1).
Proof.
  revert s; induction frames as [| f frames IH]; intros s Hs Hend.
  - cbn in Hend; destruct Hs as [H | H]; rewrite H in Hend; discriminate.
  - cbn [map] in Hend |- *; rewrite exec_cons in Hend |- *.
    set (s1 := step (tickOf f) s) in *.
    pose proof (tick_phase_cases (frameDelta f) (frameScreen f) (frameRnd f) s)
      as TP; cbn zeta in TP; fold (tickOf f) in TP; fold s1 in TP.
    destruct Hs as [Hs | Hs]; rewrite Hs in TP.
    + destruct TP as [[P1 _] | [P1 _]]; apply IH; auto.
    + destruct TP as [[P1 _] | (P1 & Hge & Hsel)]; [apply IH; auto |].
      destruct (selectedFortune s) as [g |] eqn:F; [| congruence].
      destruct (tick_reveal (frameDelta f) (frameScreen f) (frameRnd f) s g
                  Hs F Hge) as (_ & V1 & _ & _ & _ & L1).
      fold (tickOf f) in V1, L1; fold s1 in V1, L1.
      destruct (frames_result frames s1 P1) as (_ & V2 & L2).
      rewrite V2, L2; auto.
Qed.

(** X16. A whole draw.  From an idle state, with the tap drawing a value
    in [0,1): whenever the tap and the frames that follow it have brought
    the phase to result, the fortune held is the entry of [FORTUNES] the
    tap selected, the card is visible, the layer scale is back at 1, and
    the run has issued exactly seven tweens, in this order, however many
    frames it took. *)
Theorem whole_draw (s : GachaState) (rndTap : nat -> R) (frames : list Frame) :
  phase s = idle ->
  valid_rnd rndTap ->
  phase (exec (Tap rndTap :: map tickOf frames) s) = result ->
  let s' := exec (Tap rndTap :: map tickOf frames) s in
  (exists f, In f FORTUNES /\ selectedFortune s' = Some f /\
             selectedFortune (step (Tap rndTap) s) = Some f) /\
  cardVisible (scene s') = true /\
  layerScale (scene s') = (1, 1) /\
  tweens (scene s')
  = tweens (scene s)
    ++ [OverlayFade 0 0.7 0.5; BloomTo 2 1.5 1.5 false 0;
        BackgroundFlash 0.3; BloomTo 3 2 0.2 true 1;
        CardScaleTo 1 1 0.8; CardRotationTo 0 0.8;
        BloomTo 1.5 1.3 0.5 false 0].
Proof.
  intros Hs Hv Hend s'; subst s'.
  rewrite exec_cons in Hend |- *.
  set (s1 := step (Tap rndTap) s) in *.
  destruct (tap_idle_fields s rndTap Hs) as (P1 & _ & _ & F1).
  fold s1 in P1, F1.
  destruct (index_random FORTUNES (rndTap O) (Hv O)) as (f & Hf0 & Hin);
    [discriminate |].
  rewrite INR_FORTUNES in Hf0.
  destruct (frames_revealed frames s1 (or_introl P1) Hend) as [V L].
  split; [| split; [exact V | split; [exact L |]]].
  - exists f; rewrite frames_selected, F1; auto.
  - rewrite frames_tweens, Hend, P1.
    unfold s1; rewrite step_tweens; fold s1; rewrite Hs, P1.
    cbn [tweensIssued tweensBetween]; rewrite <- app_assoc; reflexivity.
Qed.

(** On [oneDraw]: the tap, a frame of 90 ticks, a frame of 60 ticks. *)
Lemma whole_draw_witness :
  let s' := exec oneDraw initState in
  phase s' = result /\
  cardVisible (scene s') = true /\
  List.length (tweens (scene s')) = 7%nat.
Proof.
  intros s'.
  destruct oneDraw_states as (_ & _ & P3 & _).
  change (phase s' = result) in P3.
  destruct (whole_draw initState zeros
              [mkFrame 90 screen0 zeros; mkFrame 60 screen0 zeros])
    as (_ & V & _ & T).
  - reflexivity.
  - exact valid_zeros.
  - exact P3.
  - change (exec (Tap zeros
                    :: map tickOf [mkFrame 90 screen0 zeros;
                                   mkFrame 60 screen0 zeros]) initState)
      with s' in V, T.
    split; [exact P3 |]; split; [exact V |].
    rewrite T; reflexivity.
Defined.

(** X23. Two frames are enough.  From an idle state, with the tap drawing
    a value in [0,1): the tap, a frame of 90 ticks or more and a frame of
    60 ticks or more end in the result phase, with the card visible,
    centred on the screen of the second frame, at scale 0 and rotated by pi
    for its entrance, and the layer scale back at 1. *)
Theorem draw_in_two_frames (s : GachaState) (rndTap : nat -> R)
    (release reveal : Frame) :
  phase s = idle ->
  valid_rnd rndTap ->
  90 <= frameDelta release ->
  60 <= frameDelta reveal ->
  let s' := exec [Tap rndTap; tickOf release; tickOf reveal] s in
  phase (step (tickOf release) (step (Tap rndTap) s)) = releasing /\
  phase s' = result /\
  cardVisible (scene s') = true /\
  cardPos (scene s')
  = (getCenterX (frameScreen reveal), getCenterY (frameScreen reveal)) /\
  cardScale (scene s') = (0, 0) /\
  cardRotation (scene s') = PI /\
  layerScale (scene s') = (1, 1).
Proof.
  intros Hs Hv H90 H60 s'; subst s'.
  cbn [exec fold_left].
  set (s1 := step (Tap rndTap) s).
  destruct (tap_idle_fields s rndTap Hs) as (P1 & C1 & _ & F1).
  fold s1 in P1, C1, F1.
  destruct (index_random FORTUNES (rndTap O) (Hv O)) as (f & Hf0 & _);
    [discriminate |].
  rewrite INR_FORTUNES in Hf0.
  destruct (tick_charging_fields (frameDelta release) (frameScreen release)
              (frameRnd release) s1 P1) as [_ Hgo].
  destruct Hgo as (P2 & C2); [rewrite C1; lra |].
  fold (tickOf release) in P2, C2.
  set (s2 := step (tickOf release) s1) in *.
  assert (F2 : selectedFortune s2 = Some f).
  { unfold s2, tickOf; cbn [step]; unfold run.
    rewrite tick_selected, F1; exact Hf0. }
  split; [exact P2 |].
  apply (tick_reveal (frameDelta reveal) (frameScreen reveal)
           (frameRnd reveal) s2 f P2 F2).
  rewrite C2; lra.
Qed.

(** On [oneDraw]. *)
Lemma draw_in_two_frames_witness :
  phase (exec oneDraw initState) = result /\
  cardScale (scene (exec oneDraw initState)) = (0, 0).
Proof.
  destruct (draw_in_two_frames initState zeros (mkFrame 90 screen0 zeros)
              (mkFrame 60 screen0 zeros))
    as (_ & P & _ & _ & S & _).
  - reflexivity.
  - exact valid_zeros.
  - cbn; lra.
  - cbn; lra.
  - split; [exact P | exact S].
Defined.

(** ** Resizing *)

(** X17. A resize moves the prompt to 200 below the new centre and, in the
    result phase with a fortune selected, the card to the new centre; it
    leaves the phase, the progress, the clock, the fortune, the three
    collections, the visibility flags and the tweens as they are; and a
    later resize overrides an earlier one, so resizing twice to the same
    size is resizing once. *)
Theorem resize_repositions_only (scr1 scr2 : Screen) (s : GachaState) :
  let s' := handleResize scr2 s in
  handleResize scr2 (handleResize scr1 s) = s' /\
  instructionPos (scene s') = (getCenterX scr2, getCenterY scr2 + 200) /\
  cardPos (scene s')
  = match phase s, selectedFortune s with
    | result, Some _ => (getCenterX scr2, getCenterY scr2)
    | _, _ => cardPos (scene s)
    end /\
  phase s' = phase s /\ chargeProgress s' = chargeProgress s /\
  idleTime s' = idleTime s /\ selectedFortune s' = selectedFortune s /\
  particles s' = particles s /\ energyParticles s' = energyParticles s /\
  concentrationLines s' = concentrationLines s /\
  instructionVisible (scene s') = instructionVisible (scene s) /\
  cardVisible (scene s') = cardVisible (scene s) /\
  tweens (scene s') = tweens (scene s).
Proof.
  cbn zeta; unfold handleResize; cbn [phase selectedFortune scene].
  destruct (phase s), (selectedFortune s); cbn; repeat split.
Qed.

(** ** Well-formed particles and lines *)

Lemma filter_update_Forall2 {A : Type} (f : A -> A * bool) (P Q : A -> Prop)
    (l : list A) :
  Forall P l ->
  (forall a a', P a -> f a = (a', true) -> Q a') ->
  Forall Q (filter_update f l).
Proof.
  intros HP H; apply Forall_forall; intros q Hq.
  apply filter_update_In in Hq as (a & Ha & Hfa).
  rewrite Forall_forall in HP; exact (H a q (HP a Ha) Hfa).
Qed.

Lemma update_particle_ok (delta : R) (a a' : Particle.t) :
  0 <= delta ->
  particle_ok a -> Particle.update delta a = (a', true) -> particle_ok a'.
Proof.
  intros Hd (Hl & Hm & Hz) H.
  pose proof (particle_update_alive delta a a' H) as Halive.
  unfold Particle.update in H; injection H as <- _.
  cbn in Halive |- *; unfold particle_ok; cbn.
  assert (0 <= delta / 60 / Particle.maxLife a).
  { apply Rmult_le_pos; [lra | apply Rlt_le, Rinv_0_lt_compat, Hm]. }
  repeat split; lra.
Qed.

Lemma energyStep_particle_ok (delta cx cy : R) (a a' : Particle.t) :
  0 <= delta ->
  particle_ok a -> energyStep delta cx cy a = (a', true) -> particle_ok a'.
Proof.
  intros Hd Ha; unfold energyStep.
  destruct (Particle.update delta a) as [p alive] eqn:E.
  destruct (ltb _ 50); intros H; injection H as <- E'; [discriminate |].
  subst alive; exact (update_particle_ok delta a p Hd Ha E).
Qed.

Lemma update_line_ok (delta : R) (a a' : ConcentrationLine.t) :
  0 <= delta ->
  line_ok a -> ConcentrationLine.update delta a = (a', true) -> line_ok a'.
Proof.
  intros Hd (Hdist & Hs & Hl & Hw) H.
  pose proof (line_update_alive delta a a' H) as Halive.
  unfold ConcentrationLine.update in H; injection H as <- _.
  cbn in Halive |- *; unfold line_ok; cbn.
  repeat split; try lra; nra.
Qed.

Lemma new_particle_ok (x0 y0 : R) (c : option Z) (rnd : nat -> R) (n : nat) :
  valid_rnd rnd -> particle_ok (fst (Particle.new x0 y0 c rnd n)).
Proof.
  intros Hv; unfold particle_ok; cbn.
  pose proof (Hv (S (S n))); pose proof (Hv (S (S (S n)))).
  repeat split; lra.
Qed.

Lemma energy_particle_ok (scr : Screen) (rnd : nat -> R) (n : nat) :
  valid_rnd rnd -> particle_ok (fst (addEnergyParticle scr rnd n)).
Proof.
  intros Hv; unfold particle_ok; cbn.
  pose proof (Hv (S n)); pose proof (Hv (5 + n)%nat) as H5.
  pose proof (Hv (6 + n)%nat) as H6; cbn in H5, H6.
  repeat split; try lra.
  unfold energyDistance; apply Rdiv_lt_0_compat; lra.
Qed.

Lemma ambient_particle_ok (scr : Screen) (f : Fortune) (rnd : nat -> R)
    (n : nat) :
  valid_rnd rnd -> particle_ok (fst (addAmbientParticle scr f rnd n)).
Proof.
  intros Hv; unfold particle_ok; cbn.
  pose proof (Hv (4 + n)%nat) as H4; pose proof (Hv (5 + n)%nat) as H5.
  cbn in H4, H5; repeat split; lra.
Qed.

Lemma new_line_ok (cx cy : R) (rnd : nat -> R) (n : nat) :
  valid_rnd rnd -> line_ok (fst (ConcentrationLine.new cx cy rnd n)).
Proof.
  intros Hv; unfold line_ok; cbn.
  pose proof (Hv (1 + n)%nat) as H1; pose proof (Hv (2 + n)%nat) as H2.
  pose proof (Hv (3 + n)%nat) as H3; pose proof (Hv (4 + n)%nat) as H4.
  cbn in H1, H2, H3, H4; repeat split; lra.
Qed.

Lemma step_entities_ok (ev : Event) (s : GachaState) :
  valid_event ev -> nonneg_event ev ->
  entities_ok s -> entities_ok (step ev s).
Proof.
  intros Hv Hn (HP & HE & HL).
  destruct ev as [rnd | delta scr rnd | scr].
  - destruct (tap_shape rnd s) as (TE & TL & _ & TP & _).
    unfold entities_ok; rewrite TE, TL, TP.
    destruct (phase s); repeat split; auto.
  - cbn in Hv, Hn; destruct (phase s) eqn:E.
    + rewrite (tick_idle_shape delta scr rnd s E).
      unfold entities_ok; cbn; auto.
    + destruct (tick_charging_shape delta scr rnd s E)
        as (_ & spE & spL & HspE & HspL & H).
      destruct (geb (chargeProgress s + delta / 90) 1).
      * destruct H as (_ & _ & HE' & HL' & n & HP').
        unfold entities_ok; rewrite HE', HL', HP'.
        destruct (explode_Forall particle_ok 150
                    (getCenterX scr) (getCenterY scr) rnd) with
          (acc := particles s) (n := n) as (burst & Hb & _ & HF).
        { intros c m; apply new_particle_ok, Hv. }
        rewrite Hb; repeat split; auto.
        apply Forall_app; auto.
      * destruct H as (_ & _ & HP' & HE' & HL').
        unfold entities_ok; rewrite HE', HL', HP'.
        repeat split; auto.
        -- apply filter_update_Forall2 with (P := particle_ok).
           ++ apply Forall_app; split; [exact HE |].
              destruct HspE as [-> | ->]; [constructor |].
              constructor; [apply energy_particle_ok, Hv | constructor].
           ++ intros a a'; apply energyStep_particle_ok, Hn.
        -- apply filter_update_Forall2 with (P := line_ok).
           ++ apply Forall_app; split; [exact HL |].
              destruct HspL as [-> | [m ->]]; [constructor |].
              constructor; [apply new_line_ok, Hv | constructor].
           ++ intros a a'; apply update_line_ok, Hn.
    + destruct (tick_releasing_shape delta scr rnd s E)
        as (HP' & HE' & HL' & _).
      unfold entities_ok; rewrite HP', HE', HL'.
      repeat split; auto.
      apply filter_update_Forall2 with (P := particle_ok); [exact HP |].
      intros a a'; apply update_particle_ok, Hn.
    + destruct (tick_result_shape delta scr rnd s E)
        as (_ & HE' & HL' & _ & _ & sp & Hsp & HP').
      unfold entities_ok; rewrite HP', HE', HL'.
      repeat split; auto.
      apply filter_update_Forall2 with (P := particle_ok).
      * apply Forall_app; split; [exact HP |].
        destruct Hsp as [-> | (f & _ & ->)]; [constructor |].
        constructor; [apply ambient_particle_ok, Hv | constructor].
      * intros a a'; apply update_particle_ok, Hn.
  - exact (conj HP (conj HE HL)).
Qed.

(** X18. With values of [Math.random] in [0,1) and no negative delta, in
    every state reached from the initial one every stored particle has a
    [life] above 0 and at most 1, a positive [maxLife] and a [size] from 2
    to 6, and every stored line has a [distance] above 0 and at most 600,
    a [speed] from 4 to 12, a [length] from 50 to 150 and a [width] from 1
    to 4. *)
Theorem reachable_entities_ok (evs : list Event) :
  Forall valid_event evs ->
  Forall nonneg_event evs ->
  entities_ok (exec evs initState).
Proof.
  induction evs as [| ev evs IH] using rev_ind; intros Hv Hn.
  - unfold entities_ok; cbn; repeat split; constructor.
  - apply Forall_app in Hv as [Hv Hev]; apply Forall_app in Hn as [Hn Hen].
    inversion_clear Hev as [| ? ? Hev' _]; inversion_clear Hen as [| ? ? Hen' _].
    rewrite exec_snoc; apply step_entities_ok; auto.
Qed.

(** The state right after the release, which holds the 150 particles of
    the explosion. *)
Lemma reachable_entities_ok_witness :
  let s := exec [Tap zeros; Tick 90 screen0 zeros] initState in
  entities_ok s /\ List.length (particles s) = 150%nat.
Proof.
  intros s; split.
  - apply (reachable_entities_ok [Tap zeros; Tick 90 screen0 zeros]).
    + apply Forall_cons; [exact valid_zeros |].
      apply Forall_cons; [exact valid_zeros | apply Forall_nil].
    + apply Forall_cons; [exact I |].
      apply Forall_cons; [cbn; lra | apply Forall_nil].
  - destruct (tap_idle_fields initState zeros eq_refl) as (P0 & C0 & Q0 & _).
    destruct (tick_charging_release 90 screen0 zeros _ P0 valid_zeros)
      as (_ & burst & Hb & Hl & _); [rewrite C0; lra |].
    unfold s; cbn [exec fold_left]; rewrite Hb, Q0, length_app, Hl.
    reflexivity.
Defined.

(** ** Drawing the particles *)

Lemma flat_map_length_const {A B : Type} (f : A -> list B) (c : nat)
    (l : list A) :
  (forall a, List.length (f a) = c) ->
  List.length (flat_map f l) = (c * List.length l)%nat.
Proof.
  intros H; induction l as [| a l IH]; cbn; [lia |].
  rewrite length_app, H, IH; lia.
Qed.

Lemma Forall_flat_map_intro {A B : Type} (f : A -> list B) (P : A -> Prop)
    (Q : B -> Prop) (l : list A) :
  Forall P l -> (forall a, P a -> Forall Q (f a)) -> Forall Q (flat_map f l).
Proof.
  intros HP H; induction HP as [| a l Ha _ IH]; cbn.
  - constructor.
  - apply Forall_app; split; [apply H, Ha | exact IH].
Qed.

(** X19. In a state whose stored particles and lines are well formed (as
    they are in every state reached with values of [Math.random] in [0,1)
    and no negative delta), what [drawParticles] draws is one [clear],
    three calls per line and two per particle, and a renderer can paint
    all of it: every circle has a positive radius, every fill and stroke
    an alpha in (0,1], every stroke a positive width. *)
Theorem drawParticles_paintable (s : GachaState) :
  entities_ok s ->
  Forall paintable (drawParticles s) /\
  List.length (drawParticles s)
  = (1 + 3 * List.length (concentrationLines s)
     + 2 * List.length (energyParticles s)
     + 2 * List.length (particles s))%nat.
Proof.
  intros (HP & HE & HL); unfold drawParticles; split.
  - constructor; [exact I |].
    apply Forall_app; split; [| apply Forall_app; split].
    + apply Forall_flat_map_intro with (P := line_ok); [exact HL |].
      intros l (_ & _ & _ & Hw); repeat constructor; cbn; lra.
    + apply Forall_flat_map_intro with (P := particle_ok); [exact HE |].
      intros p (Hl & _ & Hz); repeat constructor; cbn; nra.
    + apply Forall_flat_map_intro with (P := particle_ok); [exact HP |].
      intros p (Hl & _ & Hz); constructor; [| constructor; [| constructor]];
        cbn.
      * apply Rmult_lt_0_compat; [lra |].
        apply Rmin_glb_lt; lra.
      * lra.
  - cbn [List.length]; rewrite !length_app.
    rewrite (flat_map_length_const _ 3), !(flat_map_length_const _ 2);
      try reflexivity; lia.
Qed.

(** [nearState] holds one energy particle: a [clear], a circle and a fill. *)
Lemma drawParticles_paintable_witness :
  Forall paintable (drawParticles nearState) /\
  List.length (drawParticles nearState) = 3%nat.
Proof.
  apply (drawParticles_paintable nearState).
  unfold entities_ok, nearState; cbn [particles energyParticles concentrationLines].
  split; [constructor |]; split; [| constructor].
  constructor; [| constructor].
  unfold particle_ok, nearParticle; cbn; lra.
Defined.

(** ** Drawing the background *)

Lemma drawStars_spec (scr : Screen) (rnd : nat -> R) :
  valid_rnd rnd ->
  0 < screenWidth scr -> 0 < screenHeight scr ->
  forall (k : nat) (acc : list DrawCmd) (n : nat),
  exists stars,
    drawStars k scr acc rnd n = (acc ++ stars, (n + 4 * k)%nat) /\
    List.length stars = (2 * k)%nat /\
    Forall (starOn scr) stars.
Proof.
  intros Hv Hw Hh; induction k as [| k IH]; intros acc n.
  - exists []; cbn; rewrite app_nil_r, Nat.add_0_r; auto.
  - cbn [drawStars]; unfold bind at 1 2 3 4; cbn [random].
    match goal with
    | |- context [drawStars k scr (acc ++ ?new) rnd ?m] =>
        destruct (IH (acc ++ new) m) as (stars & Hs & Hl & HF);
        exists (new ++ stars)
    end.
    rewrite Hs, <- app_assoc; repeat split.
    + f_equal; lia.
    + rewrite length_app, Hl; cbn; lia.
    + pose proof (Hv n); pose proof (Hv (S n)); pose proof (Hv (S (S n))).
      pose proof (Hv (S (S (S n)))).
      apply Forall_app; split; [| exact HF].
      constructor; [| constructor; [| constructor]]; cbn.
      * repeat split; nra.
      * split; [reflexivity | lra].
Qed.

(** X20. On a screen of positive width and height, with values of
    [Math.random] in [0,1), [drawBackground] clears, fills the screen with
    the night colour and then draws exactly 100 stars, a circle and a fill
    each: every star lies inside the screen, has a radius in [0,2) and is
    white with an alpha in [0.2,0.7); the call reads 400 random values. *)
Theorem drawBackground_stars (scr : Screen) (rnd : nat -> R) (n : nat) :
  valid_rnd rnd ->
  0 < screenWidth scr -> 0 < screenHeight scr ->
  exists stars,
    drawBackground scr rnd n
    = ([Clear; Rect 0 0 (screenWidth scr) (screenHeight scr);
        Fill (Some 0x0a0a1a%Z) 1] ++ stars, (n + 400)%nat) /\
    List.length stars = 200%nat /\
    Forall (starOn scr) stars.
Proof.
  intros Hv Hw Hh; unfold drawBackground.
  destruct (drawStars_spec scr rnd Hv Hw Hh 100
              [Clear; Rect 0 0 (screenWidth scr) (screenHeight scr);
               Fill (Some 0x0a0a1a%Z) 1] n) as (stars & Hs & Hl & HF).
  exists stars; repeat split; assumption.
Qed.

Lemma drawBackground_stars_witness :
  exists stars,
    drawBackground screen0 zeros O
    = ([Clear; Rect 0 0 (screenWidth screen0) (screenHeight screen0);
        Fill (Some 0x0a0a1a%Z) 1] ++ stars, 400%nat) /\
    List.length stars = 200%nat /\
    Forall (starOn screen0) stars.
Proof.
  apply (drawBackground_stars screen0 zeros O valid_zeros); cbn; lra.
Defined.

(** ** Drawing the machine *)




